(** * build-dictionary.py: bucketing a word list by length

    A shallow embedding of [dictionaries/english/build-dictionary.py] and
    the properties of its specification.

    The script reads the decompressed word list in binary mode (the
    default mode of [gzip.open] is ["rb"]), so the loop variable [word]
    is a [bytes] object: [word.strip()] is [bytes.strip], [len(word)] is
    the number of bytes, and the text is obtained only afterwards by
    [word.decode("utf-8")], inside the argument of [write].

    The input of the model is the decompressed content of the source.
    The run is a computation in a state-and-exception monad over the
    program state: the global dictionary [dictFiles], the files of the
    working directory, and the sequence of file operations performed. *)

From Stdlib Require Import Strings.Byte.
From stdpp Require Import gmap strings list pretty.

Local Open Scope N_scope.

(** ** Data *)

(** A Python [bytes] object. *)
Abbreviation bytes := (list byte).

(** A Python [str]: a sequence of Unicode code points. *)
Abbreviation str := (list N).

#[global] Instance byte_eq_decision : EqDecision byte := Byte.byte_eq_dec.

(** The line feed, as a byte and as a character. *)
Definition LF : byte := x0a.
Definition NL : N := 10.

(** ** Library functions on [bytes] *)

Module Bytes.

(** ASCII whitespace, the default argument of [bytes.strip]:
    [b' \t\n\r\x0b\f']. *)
Definition isspace (b : byte) : bool :=
  match b with
  | x20 | x09 | x0a | x0d | x0b | x0c => true
  | _ => false
  end.

Fixpoint lstrip (s : bytes) : bytes :=
  match s with
  | [] => []
  | b :: s' => if isspace b then lstrip s' else s
  end.

Definition rstrip (s : bytes) : bytes := rev (lstrip (rev s)).

(** [bytes.strip()]: whitespace is removed at both ends. *)
Definition strip (s : bytes) : bytes := rstrip (lstrip s).

Definition is_lf (b : byte) : bool := bool_decide (b = LF).

(** Iterating over a binary file yields its lines; each line keeps its
    terminating line feed, and a last line without one is yielded as
    it is. *)
Fixpoint readlines (s : bytes) : list bytes :=
  match s with
  | [] => []
  | b :: s' =>
      if is_lf b then [b] :: readlines s'
      else match readlines s' with
           | [] => [[b]]
           | l :: ls => (b :: l) :: ls
           end
  end.

Definition all_space (s : bytes) : Prop := Forall (λ b, isspace b = true) s.

(** Neither the first nor the last byte is whitespace. *)
Definition trimmed (w : bytes) : Prop :=
  (∀ b w', w = b :: w' → isspace b = false)
  ∧ (∀ w' b, w = w' ++ [b] → isspace b = false).

End Bytes.

(** ** The strict UTF-8 decoder *)

Module Utf8.

Definition between (lo hi v : N) : bool := (lo <=? v) && (v <=? hi).

(** A continuation byte [10xxxxxx]. *)
Definition is_cont (b : byte) : bool := between 0x80 0xBF (Byte.to_N b).

(** The six payload bits of a continuation byte. *)
Definition payload (b : byte) : N := N.land (Byte.to_N b) 0x3F.

(** [bytes.decode("utf-8")] with the default [errors="strict"]: [None]
    stands for [UnicodeDecodeError].  Overlong forms, surrogates and
    code points above [U+10FFFF] are rejected through the admissible
    range of the second byte. *)
Fixpoint decode (s : bytes) : option str :=
  match s with
  | [] => Some []
  | b0 :: s1 =>
      let v0 := Byte.to_N b0 in
      if v0 <? 0x80 then cons v0 <$> decode s1
      else if v0 <? 0xC2 then None
      else if v0 <? 0xE0 then
        match s1 with
        | b1 :: s2 =>
            if is_cont b1
            then cons (N.shiftl (N.land v0 0x1F) 6 + payload b1) <$> decode s2
            else None
        | _ => None
        end
      else if v0 <? 0xF0 then
        match s1 with
        | b1 :: b2 :: s3 =>
            let lo := if v0 =? 0xE0 then 0xA0 else 0x80 in
            let hi := if v0 =? 0xED then 0x9F else 0xBF in
            if between lo hi (Byte.to_N b1) && is_cont b2
            then cons (N.shiftl (N.land v0 0x0F) 12
                       + N.shiftl (payload b1) 6 + payload b2)
                   <$> decode s3
            else None
        | _ => None
        end
      else if v0 <? 0xF5 then
        match s1 with
        | b1 :: b2 :: b3 :: s4 =>
            let lo := if v0 =? 0xF0 then 0x90 else 0x80 in
            let hi := if v0 =? 0xF4 then 0x8F else 0xBF in
            if between lo hi (Byte.to_N b1) && is_cont b2 && is_cont b3
            then cons (N.shiftl (N.land v0 0x07) 18
                       + N.shiftl (payload b1) 12
                       + N.shiftl (payload b2) 6 + payload b3)
                   <$> decode s4
            else None
        | _ => None
        end
      else None
  end.

(** The first character of a byte string and the bytes after it. *)
Definition next_char (s : bytes) : option (N * bytes) :=
  match s with
  | [] => None
  | b0 :: s1 =>
      let v0 := Byte.to_N b0 in
      if v0 <? 0x80 then Some (v0, s1)
      else if v0 <? 0xC2 then None
      else if v0 <? 0xE0 then
        match s1 with
        | b1 :: s2 =>
            if is_cont b1
            then Some (N.shiftl (N.land v0 0x1F) 6 + payload b1, s2)
            else None
        | _ => None
        end
      else if v0 <? 0xF0 then
        match s1 with
        | b1 :: b2 :: s3 =>
            let lo := if v0 =? 0xE0 then 0xA0 else 0x80 in
            let hi := if v0 =? 0xED then 0x9F else 0xBF in
            if between lo hi (Byte.to_N b1) && is_cont b2
            then Some (N.shiftl (N.land v0 0x0F) 12
                       + N.shiftl (payload b1) 6 + payload b2, s3)
            else None
        | _ => None
        end
      else if v0 <? 0xF5 then
        match s1 with
        | b1 :: b2 :: b3 :: s4 =>
            let lo := if v0 =? 0xF0 then 0x90 else 0x80 in
            let hi := if v0 =? 0xF4 then 0x8F else 0xBF in
            if between lo hi (Byte.to_N b1) && is_cont b2 && is_cont b3
            then Some (N.shiftl (N.land v0 0x07) 18
                       + N.shiftl (payload b1) 12
                       + N.shiftl (payload b2) 6 + payload b3, s4)
            else None
        | _ => None
        end
      else None
  end.

(** The bytes from [0x80] on, and the bytes below (the ASCII ones). *)
Definition high (b : byte) : Prop := (Byte.to_N b <? 0x80) = false.

Definition low (b : byte) : Prop := (Byte.to_N b <? 0x80) = true.

(** The four forms of an encoded character, with the code point as a
    number in base 64. *)
Inductive encoded : bytes → N → Prop :=
| encoded_1 b :
    Byte.to_N b < 0x80 → encoded [b] (Byte.to_N b)
| encoded_2 b0 b1 (v0 := Byte.to_N b0) (v1 := Byte.to_N b1) :
    0xC2 <= v0 < 0xE0 → 0x80 <= v1 <= 0xBF →
    encoded [b0; b1] ((v0 - 0xC0) * 64 + (v1 - 0x80))
| encoded_3 b0 b1 b2
    (v0 := Byte.to_N b0) (v1 := Byte.to_N b1) (v2 := Byte.to_N b2) :
    0xE0 <= v0 < 0xF0 → 0x80 <= v1 <= 0xBF → 0x80 <= v2 <= 0xBF →
    (v0 = 0xE0 → 0xA0 <= v1) → (v0 = 0xED → v1 <= 0x9F) →
    encoded [b0; b1; b2]
      ((v0 - 0xE0) * 4096 + (v1 - 0x80) * 64 + (v2 - 0x80))
| encoded_4 b0 b1 b2 b3
    (v0 := Byte.to_N b0) (v1 := Byte.to_N b1)
    (v2 := Byte.to_N b2) (v3 := Byte.to_N b3) :
    0xF0 <= v0 < 0xF5 → 0x80 <= v1 <= 0xBF →
    0x80 <= v2 <= 0xBF → 0x80 <= v3 <= 0xBF →
    (v0 = 0xF0 → 0x90 <= v1) → (v0 = 0xF4 → v1 <= 0x8F) →
    encoded [b0; b1; b2; b3]
      ((v0 - 0xF0) * 262144 + (v1 - 0x80) * 4096
       + (v2 - 0x80) * 64 + (v3 - 0x80)).

End Utf8.

(** ** Text files *)

(** The lines of a text, without their terminators (what a reader of an
    output file obtains). *)
Fixpoint text_lines (s : str) : list str :=
  match s with
  | [] => []
  | c :: s' =>
      if bool_decide (c = NL) then [] :: text_lines s'
      else match text_lines s' with
           | [] => [[c]]
           | l :: ls => (c :: l) :: ls
           end
  end.

(** [f"{n}.txt"] *)
Definition file_name (n : nat) : string := pretty n +:+ ".txt".


(** ** A Python dictionary

    A [dict] keeps its entries in insertion order, which is the order
    in which [values()] yields them; assigning to a key that is present
    replaces the value in place. *)

Module Dict.
Section dict.
Context {V : Type}.

Definition t := list (nat * V).

Fixpoint get (k : nat) (d : t) : option V :=
  match d with
  | [] => None
  | (k', v) :: d' => if decide (k = k') then Some v else get k d'
  end.

Fixpoint set (k : nat) (v : V) (d : t) : t :=
  match d with
  | [] => [(k, v)]
  | (k', v') :: d' =>
      if decide (k = k') then (k, v) :: d' else (k', v') :: set k v d'
  end.

Definition keys (d : t) : list nat := d.*1.

(** [k in d] *)
Definition contains (k : nat) (d : t) : bool :=
  bool_decide (is_Some (get k d)).
End dict.
Arguments t : clear implicits.
End Dict.

(** ** The program state *)

(** A text file object as returned by [open(name, "w")]: the characters
    written to it are buffered and reach the file when the object is
    closed.  (The interpreter may flush a full buffer earlier: what is
    stated below about the content of an open file is stated on
    [file_view], the file followed by the buffer, which an early flush
    leaves unchanged.) *)
Record TextIOWrapper := TextIO {
  name : string;
  buffer : str;
  closed : bool
}.

(** The file operations a run performs, in order. *)
Inductive event :=
| EvOpen (nm : string)
| EvWrite (nm : string) (s : str)
| EvClose (nm : string).

#[global] Instance event_eq_decision : EqDecision event.
Proof. solve_decision. Defined.

(** [dictFiles] is the script's global variable.  A file object is
    referenced from its entry of [dictFiles] only, so the key of the
    entry stands for the reference to the object.  [disk] maps the names
    of the files of the working directory to their contents. *)
Record state := State {
  dictFiles : Dict.t TextIOWrapper;
  disk : gmap string str;
  trace : list event
}.

Inductive exn := UnicodeDecodeError | KeyError | ValueError.

Inductive result (A : Type) :=
| Ok (a : A)
| Raise (e : exn).
Arguments Ok {A} a.
Arguments Raise {A} e.

(** Computations that read and update the state and may raise; the
    state reached when an exception is raised is kept. *)
Definition M (A : Type) : Type := state → state * result A.

Definition ret {A} (a : A) : M A := λ σ, (σ, Ok a).

Definition bind {A B} (m : M A) (k : A → M B) : M B := λ σ,
  match m σ with
  | (σ', Ok a) => k a σ'
  | (σ', Raise e) => (σ', Raise e)
  end.

Definition raise {A} (e : exn) : M A := λ σ, (σ, Raise e).

Declare Scope prog_scope.
Delimit Scope prog_scope with prog.
Notation "x ← y ; z" := (bind y (λ x, z))
  (at level 20, y at level 100, z at level 200, only parsing) : prog_scope.
Notation "x ;; z" := (bind x (λ _, z))
  (at level 100, z at level 200, only parsing, right associativity)
  : prog_scope.
Local Open Scope prog_scope.

(** [for x in xs: body(x)] *)
Fixpoint for_each {A} (xs : list A) (body : A → M unit) : M unit :=
  match xs with
  | [] => ret tt
  | x :: xs' => body x ;; for_each xs' body
  end.

(** ** Built-in operations *)

(** [open(nm, "w")]: the file is created, or truncated when it exists. *)
Definition open_w (nm : string) : M TextIOWrapper := λ σ,
  (State (dictFiles σ) (<[nm := []]> (disk σ)) (trace σ ++ [EvOpen nm]),
   Ok (TextIO nm [] false)).

(** [n in dictFiles] *)
Definition dict_contains (n : nat) : M bool := λ σ,
  (σ, Ok (Dict.contains n (dictFiles σ))).

(** [dictFiles[n] = f] *)
Definition dict_setitem (n : nat) (f : TextIOWrapper) : M unit := λ σ,
  (State (Dict.set n f (dictFiles σ)) (disk σ) (trace σ), Ok tt).

(** [dictFiles[n]]: the reference to the object stored under [n]. *)
Definition dict_getitem (n : nat) : M nat := λ σ,
  match Dict.get n (dictFiles σ) with
  | Some _ => (σ, Ok n)
  | None => (σ, Raise KeyError)
  end.

(** [dictFiles.values()], as the list of references. *)
Definition dict_values : M (list nat) := λ σ,
  (σ, Ok (Dict.keys (dictFiles σ))).

(** [word.decode("utf-8")] *)
Definition bytes_decode (word : bytes) : M str :=
  match Utf8.decode word with
  | Some text => ret text
  | None => raise UnicodeDecodeError
  end.

(** [f.write(s)] *)
Definition file_write (r : nat) (s : str) : M unit := λ σ,
  match Dict.get r (dictFiles σ) with
  | None => (σ, Raise KeyError)
  | Some f =>
      if closed f then (σ, Raise ValueError)
      else (State (Dict.set r (TextIO (name f) (buffer f ++ s) false)
                     (dictFiles σ))
              (disk σ) (trace σ ++ [EvWrite (name f) s]),
            Ok tt)
  end.

(** [f.close()]: the buffer is flushed to the file; closing a closed
    file does nothing. *)
Definition file_close (r : nat) : M unit := λ σ,
  match Dict.get r (dictFiles σ) with
  | None => (σ, Raise KeyError)
  | Some f =>
      if closed f then (σ, Ok tt)
      else (State (Dict.set r (TextIO (name f) [] true) (dictFiles σ))
              (<[name f := default [] (disk σ !! name f) ++ buffer f]>
                 (disk σ))
              (trace σ ++ [EvClose (name f)]),
            Ok tt)
  end.

(** ** The script *)

(** Lines 11-12: [if n not in dictFiles: dictFiles[n] = open(...)]. *)
Definition open_bucket (n : nat) : M unit :=
  c ← dict_contains n;
  if c then ret tt
  else f ← open_w (file_name n); dict_setitem n f.

(** The body of the loop, lines 8-14.  In
    [dictFiles[n].write(word.decode("utf-8") + "\n")] the subscript is
    evaluated first, then the argument, then the call. *)
Definition loop_body (line : bytes) : M unit :=
  let word := Bytes.strip line in
  let n := length word in
  open_bucket n ;;
  r ← dict_getitem n;
  text ← bytes_decode word;
  file_write r (text ++ [NL]).

(** Lines 16-17. *)
Definition close_files : M unit :=
  fs ← dict_values;
  for_each fs file_close.

(** The whole script, on the decompressed content [src] of the source. *)
Definition main (src : bytes) : M unit :=
  for_each (Bytes.readlines src) loop_body ;;
  close_files.

(** A run in a working directory [d0]: [dictFiles = {}] (line 4). *)
Definition initial (d0 : gmap string str) : state := State [] d0 [].

Definition run (src : bytes) (d0 : gmap string str) : state * result unit :=
  main src (initial d0).

(** The exit status of the interpreter: 1 after an uncaught exception. *)
Definition exit_status {A} (r : result A) : nat :=
  match r with
  | Ok _ => 0
  | Raise _ => 1
  end%nat.

(** * The vocabulary of the properties *)

(** ** Texts, traces and words *)

(** A text made of lines, each followed by a line feed. *)
Fixpoint unlines (ts : list str) : str :=
  match ts with
  | [] => []
  | t :: ts' => t ++ NL :: unlines ts'
  end.

Definition opens (t : list event) : list string :=
  omap (λ e, match e with EvOpen nm => Some nm | _ => None end) t.

Definition writes (t : list event) : list (string * str) :=
  omap (λ e, match e with EvWrite nm s => Some (nm, s) | _ => None end) t.

Definition closes (t : list event) : list string :=
  omap (λ e, match e with EvClose nm => Some nm | _ => None end) t.

(** Every write is made on a file that was opened before and has not
    been closed since. *)
Definition open_before_write (t : list event) : Prop :=
  ∀ t1 nm s t2, t = t1 ++ EvWrite nm s :: t2 →
    EvOpen nm ∈ t1 ∧ EvClose nm ∉ t1.

(** A file is opened only when a word is about to be written to it: the
    operation that follows the opening, if any, is a write to that
    file. *)
Definition open_then_write (t : list event) : Prop :=
  ∀ t1 nm e t2, t = t1 ++ EvOpen nm :: e :: t2 → ∃ s, e = EvWrite nm s.

(** The words of the source: its lines, stripped (line 8). *)
Definition words (src : bytes) : list bytes :=
  Bytes.strip <$> Bytes.readlines src.

(** A word that [decode] accepts. *)
Definition valid (w : bytes) : Prop := is_Some (Utf8.decode w).

#[global] Instance valid_dec w : Decision (valid w).
Proof. unfold valid. apply _. Defined.

Definition text_of (w : bytes) : str := default [] (Utf8.decode w).

(** The words before the first one that is not valid: they are the ones
    a run writes. *)
Fixpoint written (ws : list bytes) : list bytes :=
  match ws with
  | [] => []
  | w :: ws' => if decide (valid w) then w :: written ws' else []
  end.

(** The same words, and the first one that is not valid, when there is
    one: the words for which a run looks up [dictFiles]. *)
Fixpoint attempted (ws : list bytes) : list bytes :=
  match ws with
  | [] => []
  | w :: ws' => if decide (valid w) then w :: attempted ws' else [w]
  end.

(** The texts of the words of [n] bytes, in the order of the source. *)
Definition bucket (n : nat) (ws : list bytes) : list str :=
  text_of <$> filter (λ w, length w = n) ws.

(** The write a valid word gives rise to. *)
Definition write_of (w : bytes) : string * str :=
  (file_name (length w), text_of w ++ [NL]).

(** The content of the file of the words of [n] bytes, as its file
    object has it: what is in the file, followed by what is still in
    the buffer. *)
Definition file_view (σ : state) (n : nat) : option str :=
  match Dict.get n (dictFiles σ) with
  | Some f => Some (default [] (disk σ !! name f) ++ buffer f)
  | None => None
  end.

(** The lines of the file of the words of [n] bytes (none when the run
    has no such file), and the lines of all the output files. *)
Definition file_lines (σ : state) (n : nat) : list str :=
  text_lines (default [] (file_view σ n)).

Definition output_lines (σ : state) : list str :=
  concat (file_lines σ <$> Dict.keys (dictFiles σ)).

(** The state of a run in a directory [d0] when the words [ws] have been
    written and the files of the lengths of the words [ows] have been
    opened: [ows] is [ws] between two iterations, and [ws] followed by
    the current word between lines 12 and 14. *)
Record inv (d0 : gmap string str) (ows ws : list bytes) (σ : state) : Prop := {
  inv_nodup : NoDup (Dict.keys (dictFiles σ));
  inv_dom : ∀ n, n ∈ Dict.keys (dictFiles σ) ↔ n ∈ length <$> ows;
  inv_obj : ∀ n f,
    Dict.get n (dictFiles σ) = Some f →
    f = TextIO (file_name n) (unlines (bucket n ws)) false;
  inv_disk : ∀ nm,
    disk σ !! nm
    = if decide (nm ∈ file_name <$> Dict.keys (dictFiles σ)) then Some []
      else d0 !! nm;
  inv_opens : opens (trace σ) = file_name <$> Dict.keys (dictFiles σ);
  inv_writes : writes (trace σ) = write_of <$> ws;
  inv_closes : closes (trace σ) = [];
  inv_obw : open_before_write (trace σ);
  inv_otw : open_then_write (trace σ);
  inv_last : ∀ t nm,
    trace σ = t ++ [EvOpen nm] →
    ∃ w, ows = ws ++ [w] ∧ nm = file_name (length w)
}.

(** The state of a run that has come to its end in a directory [d0],
    after the words [ws]. *)
Record completed (d0 : gmap string str) (ws : list bytes) (σ : state) : Prop := {
  fin_nodup : NoDup (Dict.keys (dictFiles σ));
  fin_dom : ∀ n, n ∈ Dict.keys (dictFiles σ) ↔ n ∈ length <$> ws;
  fin_obj : ∀ n f,
    Dict.get n (dictFiles σ) = Some f → f = TextIO (file_name n) [] true;
  fin_disk : ∀ n,
    n ∈ Dict.keys (dictFiles σ) →
    disk σ !! file_name n = Some (unlines (bucket n ws));
  fin_other : ∀ nm,
    nm ∉ file_name <$> Dict.keys (dictFiles σ) → disk σ !! nm = d0 !! nm;
  fin_trace : ∃ t,
    trace σ = t ++ ((λ k, EvClose (file_name k)) <$> Dict.keys (dictFiles σ))
    ∧ opens t = file_name <$> Dict.keys (dictFiles σ)
    ∧ writes t = write_of <$> ws
    ∧ closes t = []
    ∧ open_before_write t
    ∧ open_then_write t
    ∧ ∀ t' nm, t ≠ t' ++ [EvOpen nm]
}.

(** Two states that differ at most by the files of the directory. *)
Definition same_but_disk (σ1 σ2 : state) : Prop :=
  dictFiles σ1 = dictFiles σ2 ∧ trace σ1 = trace σ2.

(** A computation whose result, file objects and operations do not
    depend on what the directory contains. *)
Definition disk_blind {A} (m : M A) : Prop :=
  ∀ σ1 σ2,
    same_but_disk σ1 σ2 →
    same_but_disk (m σ1).1 (m σ2).1 ∧ (m σ1).2 = (m σ2).2.

(** ** Sources used as examples *)

(** [b"cat\ndog\nbee\nantelope\n"], the scenario of the specification. *)
Definition src_scenario : bytes :=
  [x63; x61; x74; x0a; x64; x6f; x67; x0a; x62; x65; x65; x0a;
   x61; x6e; x74; x65; x6c; x6f; x70; x65; x0a].

(** [b"cat\n\xff\xff\ndog\n"]: the second line is not valid UTF-8. *)
Definition src_invalid : bytes :=
  [x63; x61; x74; x0a; xff; xff; x0a; x64; x6f; x67; x0a].

(** [b" cat\n\xff\ndog\n"]: a leading space, then a line that is not
    valid UTF-8. *)
Definition src_space_invalid : bytes :=
  [x20; x63; x61; x74; x0a; xff; x0a; x64; x6f; x67; x0a].

(** ** The claims that the script does not meet, as the specification
    states them *)

(** Following the specification: a word whose decoded text has [N]
    characters is written to [N.txt]. *)
Definition char_count_bucketing (src : bytes) (d0 : gmap string str) : Prop :=
  ∀ w text,
    w ∈ words src → Utf8.decode w = Some text →
    (file_name (length text), text ++ [NL]) ∈ writes (trace (run src d0).1).

(** Following the specification: the word is the line without its
    trailing whitespace, the leading whitespace being kept in what is
    written. *)
Definition leading_whitespace_kept (src : bytes) (d0 : gmap string str) : Prop :=
  ∀ line,
    line ∈ Bytes.readlines src →
    text_of (Bytes.rstrip line) ++ [NL] ∈ (writes (trace (run src d0).1)).*2.

(** Following the specification: when the run is over, however it ended,
    every file object of [dictFiles] is closed and its buffer is
    empty. *)
Definition closed_on_every_path (src : bytes) (d0 : gmap string str) : Prop :=
  ∀ n f,
    Dict.get n (dictFiles (run src d0).1) = Some f →
    closed f = true ∧ buffer f = [].

(** Following the specification: the words are the lines without their
    trailing whitespace; each is a line of the file of its length and
    of no other, and the lines of all the files are, as a multiset, the
    words. *)
Definition spec_words (src : bytes) : list bytes :=
  Bytes.rstrip <$> Bytes.readlines src.

Definition partition_as_stated (src : bytes) (d0 : gmap string str) : Prop :=
  let σ := (run src d0).1 in
  (∀ w, w ∈ spec_words src →
     text_of w ∈ file_lines σ (length w)
     ∧ ∀ n, n ≠ length w → text_of w ∉ file_lines σ n)
  ∧ output_lines σ ≡ₚ text_of <$> spec_words src.

(** ** The vocabulary of the further properties *)

(** The carriage return. *)
Definition CR : byte := x0d.

(** The source made of the lines [ls], each followed by the line
    terminator [eol]. *)
Definition join_lines (eol : bytes) (ls : list bytes) : bytes :=
  concat ((λ l, l ++ eol) <$> ls).

(** A Unicode scalar value: a code point that is not a surrogate. *)
Definition scalar (c : N) : Prop :=
  c <= 0x10FFFF ∧ ¬ (0xD800 <= c <= 0xDFFF).

(** The characters [" \t\n\r\x0b\f"], the ASCII whitespace. *)
Definition is_space_char (c : N) : bool :=
  bool_decide (c ∈ [32; 9; 10; 13; 11; 12]).

#[global] Instance all_space_dec s : Decision (Bytes.all_space s).
Proof. unfold Bytes.all_space. apply _. Defined.

(** The keys of a dictionary to which [n] is added as [open_bucket]
    does: a key that is present keeps its place, a new key goes last. *)
Definition add_key (n : nat) (ks : list nat) : list nat :=
  if decide (n ∈ ks) then ks else ks ++ [n].

(** The distinct elements of [ns], in the order of their first
    occurrence. *)
Definition first_seen (ns : list nat) : list nat :=
  foldl (λ ks n, add_key n ks) [] ns.

(** [b"cat\r\n\xff\r\ndog"] and [b"  cat\n\xff\n"]: the same words up to
    the line that is not valid. *)
Definition src_crlf : bytes :=
  [x63; x61; x74; x0d; x0a; xff; x0d; x0a; x64; x6f; x67].

Definition src_padded : bytes :=
  [x20; x20; x63; x61; x74; x0a; xff; x0a].

(** [b"cat\n\n \t\ndog\n"]: an empty line and a line of whitespace. *)
Definition src_blank : bytes :=
  [x63; x61; x74; x0a; x0a; x20; x09; x0a; x64; x6f; x67; x0a].

(** [b"cat\ndog"]: the last line has no line feed. *)
Definition src_no_final_lf : bytes :=
  [x63; x61; x74; x0a; x64; x6f; x67].

(** [b"caf\xc3\xa9\n"], the word "café": four characters, five bytes. *)
Definition src_accent : bytes := [x63; x61; x66; xc3; xa9; x0a].

(** [b" a b\t\n"] *)
Definition src_inner_space : bytes := [x20; x61; x20; x62; x09; x0a].

(** [b"dog\nantelope\ncat\nto\n"] *)
Definition src_lengths : bytes :=
  [x64; x6f; x67; x0a; x61; x6e; x74; x65; x6c; x6f; x70; x65; x0a;
   x63; x61; x74; x0a; x74; x6f; x0a].

(** * Properties *)

(** ** Dictionaries *)

Module DictFacts.
Section facts.
Context {V : Type}.
Implicit Types (d : Dict.t V) (k : nat) (v : V).

Lemma get_set d k k' v :
  Dict.get k' (Dict.set k v d)
  = if decide (k' = k) then Some v else Dict.get k' d.
Proof.
  induction d as [|[k0 v0] d IH]; simpl.
  - by repeat case_decide.
  - destruct (decide (k = k0)) as [->|Hne]; simpl;
      repeat case_decide; subst; done.
Qed.

Lemma get_set_eq d k v : Dict.get k (Dict.set k v d) = Some v.
Proof. rewrite get_set. by case_decide. Qed.

Lemma get_set_ne d k k' v :
  k' ≠ k → Dict.get k' (Dict.set k v d) = Dict.get k' d.
Proof. intros. rewrite get_set. by case_decide. Qed.

Lemma get_is_Some d k : is_Some (Dict.get k d) ↔ k ∈ Dict.keys d.
Proof.
  unfold Dict.keys. induction d as [|[k0 v0] d IH]; simpl.
  - split; [by intros [? ?] | by intros ?%elem_of_nil].
  - rewrite elem_of_cons. destruct (decide (k = k0)) as [->|Hne].
    + split; eauto.
    + rewrite IH. split; [by right | by intros [?|?]].
Qed.

Lemma get_None d k : Dict.get k d = None ↔ k ∉ Dict.keys d.
Proof. rewrite <-get_is_Some, eq_None_not_Some. done. Qed.

Lemma contains_true d k : Dict.contains k d = true ↔ k ∈ Dict.keys d.
Proof.
  unfold Dict.contains. rewrite bool_decide_eq_true. apply get_is_Some.
Qed.

Lemma contains_false d k : Dict.contains k d = false ↔ k ∉ Dict.keys d.
Proof.
  unfold Dict.contains. rewrite bool_decide_eq_false, get_is_Some. done.
Qed.

(** Assigning to a present key keeps the order of the entries;
    a new key goes last. *)
Lemma keys_set d k v :
  Dict.keys (Dict.set k v d)
  = if Dict.contains k d then Dict.keys d else Dict.keys d ++ [k].
Proof.
  destruct (Dict.contains k d) eqn:Hc.
  - apply contains_true in Hc. unfold Dict.keys in *.
    induction d as [|[k0 v0] d IH]; simpl in *.
    + by apply elem_of_nil in Hc.
    + destruct (decide (k = k0)) as [->|Hne]; simpl; [done|].
      f_equal. apply IH. by apply elem_of_cons in Hc as [?|?].
  - apply contains_false in Hc. unfold Dict.keys in *.
    induction d as [|[k0 v0] d IH]; simpl in *; [done|].
    apply not_elem_of_cons in Hc as [Hne Hc].
    destruct (decide (k = k0)); [done|]. simpl. f_equal. by apply IH.
Qed.

Lemma set_set d k v1 v2 :
  Dict.set k v2 (Dict.set k v1 d) = Dict.set k v2 d.
Proof.
  induction d as [|[k0 v0] d IH]; simpl.
  - by case_decide.
  - case_decide; simpl; case_decide; try done. by rewrite IH.
Qed.
End facts.
End DictFacts.

(** ** Stripping and line splitting *)

Module BytesFacts.
Import Bytes.

Lemma lstrip_split s : ∃ pre, s = pre ++ lstrip s ∧ all_space pre.
Proof.
  induction s as [|b s (pre & Hs & Hpre)]; simpl.
  - exists []. split; [done | constructor].
  - destruct (isspace b) eqn:Hb.
    + exists (b :: pre). split; [by rewrite Hs at 1 | by constructor].
    + exists []. split; [done | constructor].
Qed.

Lemma lstrip_head s b s' : lstrip s = b :: s' → isspace b = false.
Proof.
  induction s as [|c s IH]; simpl; [done|].
  destruct (isspace c) eqn:Hc; [done|]. by intros [= -> _].
Qed.

Lemma lstrip_app_space pre s : all_space pre → lstrip (pre ++ s) = lstrip s.
Proof. induction 1 as [|b pre Hb _ IH]; simpl; [done | by rewrite Hb]. Qed.

Lemma lstrip_all_space s : all_space s → lstrip s = [].
Proof.
  intros Hs. rewrite <-(app_nil_r s). by rewrite lstrip_app_space.
Qed.

Lemma lstrip_id b s : isspace b = false → lstrip (b :: s) = b :: s.
Proof. intros Hb. simpl. by rewrite Hb. Qed.

Lemma all_space_rev s : all_space (rev s) ↔ all_space s.
Proof.
  unfold all_space. split; intros H; [|by apply Forall_rev].
  rewrite <-(rev_involutive s). by apply Forall_rev.
Qed.

Lemma rstrip_split s : ∃ post, s = rstrip s ++ post ∧ all_space post.
Proof.
  unfold rstrip. destruct (lstrip_split (rev s)) as (pre & Hs & Hpre).
  exists (rev pre). split; [|by apply all_space_rev].
  by rewrite <-rev_app_distr, <-Hs, rev_involutive.
Qed.

Lemma rstrip_last s w b : rstrip s = w ++ [b] → isspace b = false.
Proof.
  unfold rstrip. intros H%(f_equal (@rev byte)).
  rewrite rev_involutive, rev_unit in H. by apply lstrip_head in H.
Qed.

Lemma rstrip_app_space s post :
  all_space post → rstrip (s ++ post) = rstrip s.
Proof.
  intros Hp. unfold rstrip.
  by rewrite rev_app_distr, lstrip_app_space by by apply all_space_rev.
Qed.

Lemma rstrip_id s b : isspace b = false → rstrip (s ++ [b]) = s ++ [b].
Proof.
  intros Hb. unfold rstrip.
  by rewrite rev_unit, lstrip_id, <-rev_unit, rev_involutive.
Qed.

(** What [strip] returns: the line without a prefix and a suffix of
    whitespace, and itself without whitespace at either end. *)
Lemma strip_spec s :
  ∃ pre post,
    s = pre ++ strip s ++ post
    ∧ all_space pre ∧ all_space post ∧ trimmed (strip s).
Proof.
  unfold strip.
  destruct (lstrip_split s) as (pre & Hs & Hpre).
  destruct (rstrip_split (lstrip s)) as (post & Hl & Hpost).
  exists pre, post. split_and!; [congruence | done | done | split].
  - intros b w' Hw. rewrite Hw in Hl. by apply lstrip_head in Hl.
  - intros w' b Hw. by apply rstrip_last in Hw.
Qed.

(** ... and it is the only such middle part. *)
Lemma strip_unique pre w post :
  all_space pre → all_space post → trimmed w →
  strip (pre ++ w ++ post) = w.
Proof.
  intros Hpre Hpost [Hhd Hlast]. unfold strip.
  rewrite lstrip_app_space by done.
  destruct w as [|b w].
  - simpl. by rewrite lstrip_all_space.
  - simpl. rewrite (Hhd b w eq_refl).
    change (b :: w ++ post) with ((b :: w) ++ post).
    rewrite rstrip_app_space by done.
    destruct (exists_last (l := b :: w)) as (w' & c & Hw); [done|].
    rewrite Hw. apply rstrip_id. by eapply Hlast.
Qed.

Lemma strip_idemp s : strip (strip s) = strip s.
Proof.
  destruct (strip_spec s) as (_ & _ & _ & _ & _ & Ht).
  rewrite <-(app_nil_r (strip s)) at 1.
  by apply (strip_unique []); [constructor | constructor |].
Qed.

Lemma concat_readlines s : concat (readlines s) = s.
Proof.
  induction s as [|b s IH]; simpl; [done|].
  destruct (is_lf b); simpl; [by rewrite IH|].
  destruct (readlines s) as [|l ls]; simpl in *; by rewrite <-IH.
Qed.

Lemma readlines_nil s : readlines s = [] ↔ s = [].
Proof.
  split; [|by intros ->].
  intros H. by rewrite <-(concat_readlines s), H.
Qed.

(** A line is a run of bytes other than the line feed, followed by a
    line feed unless the source ends there. *)
Lemma readlines_line s l :
  l ∈ readlines s →
  ∃ body, (LF ∉ body) ∧ (l = body ++ [LF] ∨ (l = body ∧ body ≠ [])).
Proof.
  revert l. induction s as [|b s IH]; simpl; intros l Hl.
  - by apply elem_of_nil in Hl.
  - unfold is_lf in Hl. case_bool_decide as Hb.
    + apply elem_of_cons in Hl as [->|Hl]; [|by apply IH].
      exists []. split; [by intros ?%elem_of_nil | left; by rewrite Hb].
    + destruct (readlines s) as [|l0 ls].
      * apply list_elem_of_singleton in Hl as ->.
        exists [b]. split; [|by right].
        by intros ?%list_elem_of_singleton.
      * apply elem_of_cons in Hl as [->|Hl].
        -- destruct (IH l0) as (body & Hbody & Hl0); [by left|].
           exists (b :: body). split.
           { intros [?|?]%elem_of_cons; [by subst | done]. }
           destruct Hl0 as [->|[-> _]]; [by left | by right].
        -- apply IH. by right.
Qed.

Lemma strip_line_no_lf s l : l ∈ readlines s → LF ∉ strip l.
Proof.
  intros (body & Hbody & Hl)%readlines_line Hin.
  destruct (strip_spec l) as (pre & post & Hsplit & _ & _ & [_ Hlast]).
  apply list_elem_of_split in Hin as (w1 & w2 & Hw).
  assert (LF ∈ body) as ?; [|done].
  destruct Hl as [Hl|[Hl _]].
  - destruct (decide (w2 ++ post = [])) as [Hnil|Hne].
    + apply app_eq_nil in Hnil as [-> _].
      by specialize (Hlast _ _ Hw).
    + destruct (exists_last Hne) as (r & c & Hr).
      rewrite Hw, <-!app_assoc in Hsplit. simpl in Hsplit.
      rewrite Hr, Hl in Hsplit.
      change (LF :: r ++ [c]) with ((LF :: r) ++ [c]) in Hsplit.
      rewrite !app_assoc in Hsplit.
      apply app_inj_tail in Hsplit as [-> _].
      rewrite !elem_of_app, elem_of_cons. auto.
  - rewrite Hsplit, Hw in Hl. rewrite <-Hl.
    rewrite !elem_of_app, elem_of_cons. auto.
Qed.

End BytesFacts.

(** ** UTF-8 *)

Module Utf8Facts.
Import Utf8.

Ltac by_byte b := destruct b; vm_compute; intros; (done || discriminate).

Lemma to_N_LF b : Byte.to_N b = NL → b = LF.
Proof. by_byte b. Qed.

Lemma isspace_ascii b :
  Bytes.isspace b = true → (Byte.to_N b <? 0x80) = true.
Proof. by_byte b. Qed.

Lemma cont_not_ascii b : is_cont b = true → (Byte.to_N b <? 0x80) = false.
Proof. by_byte b. Qed.

Lemma lead2_value b :
  (Byte.to_N b <? 0xC2) = false → (Byte.to_N b <? 0xE0) = true →
  0x80 <= N.shiftl (N.land (Byte.to_N b) 0x1F) 6.
Proof. by_byte b. Qed.

Lemma lead3_value b :
  (Byte.to_N b <? 0xE0) = false → (Byte.to_N b <? 0xF0) = true →
  (Byte.to_N b =? 0xE0) = false →
  0x1000 <= N.shiftl (N.land (Byte.to_N b) 0x0F) 12.
Proof. by_byte b. Qed.

Lemma lead4_value b :
  (Byte.to_N b <? 0xF0) = false → (Byte.to_N b <? 0xF5) = true →
  (Byte.to_N b =? 0xF0) = false →
  0x40000 <= N.shiftl (N.land (Byte.to_N b) 0x07) 18.
Proof. by_byte b. Qed.

Lemma second3_value b :
  (0xA0 <=? Byte.to_N b) = true → (Byte.to_N b <=? 0xBF) = true →
  0x800 <= N.shiftl (payload b) 6.
Proof. by_byte b. Qed.

Lemma second4_value b :
  (0x90 <=? Byte.to_N b) = true → (Byte.to_N b <=? 0xBF) = true →
  0x10000 <= N.shiftl (payload b) 12.
Proof. by_byte b. Qed.

(** [decode] reads one character after the other. *)
Lemma decode_unfold s :
  decode s =
    match s with
    | [] => Some []
    | _ => match next_char s with
           | Some (c, rest) => cons c <$> decode rest
           | None => None
           end
    end.
Proof.
  destruct s as [|b0 s1]; [done|].
  unfold next_char.
  change (decode (b0 :: s1)) with
    (let v0 := Byte.to_N b0 in
      if v0 <? 0x80 then cons v0 <$> decode s1
      else if v0 <? 0xC2 then None
      else if v0 <? 0xE0 then
        match s1 with
        | b1 :: s2 =>
            if is_cont b1
            then cons (N.shiftl (N.land v0 0x1F) 6 + payload b1) <$> decode s2
            else None
        | _ => None
        end
      else if v0 <? 0xF0 then
        match s1 with
        | b1 :: b2 :: s3 =>
            let lo := if v0 =? 0xE0 then 0xA0 else 0x80 in
            let hi := if v0 =? 0xED then 0x9F else 0xBF in
            if between lo hi (Byte.to_N b1) && is_cont b2
            then cons (N.shiftl (N.land v0 0x0F) 12
                       + N.shiftl (payload b1) 6 + payload b2)
                   <$> decode s3
            else None
        | _ => None
        end
      else if v0 <? 0xF5 then
        match s1 with
        | b1 :: b2 :: b3 :: s4 =>
            let lo := if v0 =? 0xF0 then 0x90 else 0x80 in
            let hi := if v0 =? 0xF4 then 0x8F else 0xBF in
            if between lo hi (Byte.to_N b1) && is_cont b2 && is_cont b3
            then cons (N.shiftl (N.land v0 0x07) 18
                       + N.shiftl (payload b1) 12
                       + N.shiftl (payload b2) 6 + payload b3)
                   <$> decode s4
            else None
        | _ => None
        end
      else None).
  cbv zeta.
  repeat (match goal with
          | |- context [if ?c then _ else _] => destruct c
          | |- context [match ?l with [] => _ | _ :: _ => _ end] =>
              is_var l; destruct l
          end; try done).
Qed.

#[local] Opaque decode.

(** The first character takes a non-empty prefix [e] of the bytes:
    one byte below [0x80], which is the code point, or several bytes
    from [0x80] on, for a code point from [0x80] on; what follows [e]
    plays no role. *)
Lemma next_char_inv s c rest :
  next_char s = Some (c, rest) →
  ∃ e, s = e ++ rest ∧ e ≠ []
       ∧ (∀ x, next_char (e ++ x) = Some (c, x))
       ∧ ((∃ b, e = [b] ∧ c = Byte.to_N b ∧ c < 0x80)
          ∨ (0x80 <= c ∧ Forall high e)).
Proof.
  intros H. destruct s as [|b0 s1]; [done|].
  unfold next_char in H. cbv zeta in H.
  destruct (Byte.to_N b0 <? 0x80) eqn:H80.
  { injection H as <- <-. exists [b0].
    split_and!; [done | done | |].
    - intros x. simpl. by rewrite H80.
    - left. exists b0. split_and!; [done | done |]. by apply N.ltb_lt. }
  destruct (Byte.to_N b0 <? 0xC2) eqn:HC2; [done|].
  destruct (Byte.to_N b0 <? 0xE0) eqn:HE0.
  { destruct s1 as [|b1 s2]; [done|].
    destruct (is_cont b1) eqn:Hc1; [|done].
    injection H as <- <-. exists [b0; b1].
    split_and!; [done | done | |].
    - intros x. simpl. by rewrite H80, HC2, HE0, Hc1.
    - right. split.
      + pose proof (lead2_value b0 HC2 HE0). lia.
      + repeat constructor; [done | by apply cont_not_ascii]. }
  destruct (Byte.to_N b0 <? 0xF0) eqn:HF0.
  { destruct s1 as [|b1 [|b2 s3]]; [done | done |].
    destruct (between _ _ _ && is_cont b2) eqn:Hc; [|done].
    injection H as <- <-. exists [b0; b1; b2].
    split_and!; [done | done | |].
    - intros x. simpl. by rewrite H80, HC2, HE0, HF0, Hc.
    - apply andb_true_iff in Hc as [[Hlo Hhi]%andb_true_iff Hc2].
      assert ((0x80 <=? Byte.to_N b1) = true
              ∧ (Byte.to_N b1 <=? 0xBF) = true) as [Hl1 Hh1].
      { rewrite !N.leb_le in *.
        destruct (_ =? 0xE0), (_ =? 0xED); lia. }
      right. split.
      + destruct (Byte.to_N b0 =? 0xE0) eqn:HE.
        * pose proof (second3_value b1 Hlo Hh1). lia.
        * pose proof (lead3_value b0 HE0 HF0 HE). lia.
      + repeat constructor; [done | | by apply cont_not_ascii].
        apply N.ltb_ge. by apply N.leb_le. }
  destruct (Byte.to_N b0 <? 0xF5) eqn:HF5; [|done].
  destruct s1 as [|b1 [|b2 [|b3 s4]]]; [done | done | done |].
  destruct (between _ _ _ && is_cont b2 && is_cont b3) eqn:Hc; [|done].
  injection H as <- <-. exists [b0; b1; b2; b3].
  split_and!; [done | done | |].
  - intros x. simpl. by rewrite H80, HC2, HE0, HF0, HF5, Hc.
  - apply andb_true_iff in Hc as [[[Hlo Hhi]%andb_true_iff Hc2]%andb_true_iff Hc3].
    assert ((0x80 <=? Byte.to_N b1) = true
            ∧ (Byte.to_N b1 <=? 0xBF) = true) as [Hl1 Hh1].
    { rewrite !N.leb_le in *.
      destruct (_ =? 0xF0), (_ =? 0xF4); lia. }
    right. split.
    + destruct (Byte.to_N b0 =? 0xF0) eqn:HE.
      * pose proof (second4_value b1 Hlo Hh1). lia.
      * pose proof (lead4_value b0 HF0 HF5 HE). lia.
    + repeat constructor;
        [done | | by apply cont_not_ascii | by apply cont_not_ascii].
      apply N.ltb_ge. by apply N.leb_le.
Qed.

Lemma decode_nil : decode [] = Some [].
Proof. by rewrite decode_unfold. Qed.

Lemma decode_next s c rest :
  next_char s = Some (c, rest) → decode s = cons c <$> decode rest.
Proof.
  intros H. rewrite decode_unfold, H. by destruct s.
Qed.

Lemma decode_nil_inv w : decode w = Some [] → w = [].
Proof.
  rewrite decode_unfold. destruct w as [|b w]; [done|].
  destruct (next_char _) as [[c rest]|]; [|done].
  by destruct (decode rest).
Qed.

Lemma decode_cons_inv w c t :
  decode w = Some (c :: t) →
  ∃ rest, next_char w = Some (c, rest) ∧ decode rest = Some t.
Proof.
  rewrite decode_unfold. destruct w as [|b w]; [done|].
  destruct (next_char _) as [[c' rest]|]; [|done].
  destruct (decode rest) as [t'|] eqn:Hrest; [|done].
  intros [= -> ->]. by exists rest.
Qed.

(** Decoding a valid string followed by more bytes. *)
Lemma decode_app w t x :
  decode w = Some t → decode (w ++ x) = (t ++.) <$> decode x.
Proof.
  revert w. induction t as [|c t IH]; intros w Hw.
  - apply decode_nil_inv in Hw as ->. simpl. by destruct (decode x).
  - apply decode_cons_inv in Hw as (rest & Hnext & Hrest).
    apply next_char_inv in Hnext as (e & -> & _ & Hext & _).
    rewrite <-app_assoc, (decode_next _ _ _ (Hext _)), (IH _ Hrest).
    by destruct (decode x).
Qed.

Lemma decode_ascii s : Forall low s → decode s = Some (Byte.to_N <$> s).
Proof.
  induction 1 as [|b s Hb _ IH]; [apply decode_nil|].
  rewrite (decode_next _ (Byte.to_N b) s), IH; [done|].
  unfold low in Hb. simpl. by rewrite Hb.
Qed.

Lemma all_space_ascii s : Bytes.all_space s → Forall low s.
Proof. intros H. eapply Forall_impl; [done | apply isspace_ascii]. Qed.

(** A character other than an ASCII one is made of bytes that are not
    ASCII: it cannot extend into an ASCII suffix. *)
Lemma high_prefix (e w post rest : bytes) :
  Forall high e → Forall low post → w ++ post = e ++ rest →
  ∃ w', w = e ++ w' ∧ rest = w' ++ post.
Proof.
  intros He Hpost. revert w. induction He as [|a e Ha _ IH]; intros w Heq.
  - by exists w.
  - destruct w as [|a' w]; simpl in Heq.
    + subst post. apply Forall_cons in Hpost as [Ha' _].
      unfold high, low in *. congruence.
    + injection Heq as -> Heq.
      destruct (IH _ Heq) as (w' & -> & ->). by exists w'.
Qed.

Lemma decode_app_ascii_inv w post :
  Forall low post → is_Some (decode (w ++ post)) → is_Some (decode w).
Proof.
  intros Hpost [t Ht]. revert w Ht.
  induction t as [|c t IH]; intros w Ht.
  - apply decode_nil_inv, app_eq_nil in Ht as [-> _].
    by rewrite decode_nil.
  - destruct w as [|b w]; [by rewrite decode_nil|].
    apply decode_cons_inv in Ht as (rest & Hnext & Hrest).
    apply next_char_inv in Hnext as (e & Heq & _ & Hext & Hc).
    assert (∃ w', b :: w = e ++ w' ∧ rest = w' ++ post)
      as (w' & Hw & ->).
    { destruct Hc as [(b0 & -> & _)|[_ He]].
      - simpl in Heq. injection Heq as -> <-. by exists w.
      - by eapply high_prefix. }
    rewrite Hw, (decode_next _ _ _ (Hext _)).
    destruct (IH _ Hrest) as [t' ->]. by eexists.
Qed.

(** Stripping changes nothing to the validity of a line. *)
Lemma decode_strip_is_Some l :
  is_Some (decode (Bytes.strip l)) ↔ is_Some (decode l).
Proof.
  destruct (BytesFacts.strip_spec l)
    as (pre & post & Hl & Hpre%all_space_ascii & Hpost%all_space_ascii & _).
  rewrite Hl at 2.
  rewrite (decode_app _ _ _ (decode_ascii _ Hpre)). split.
  - intros [t Ht].
    rewrite (decode_app _ _ _ Ht), (decode_ascii _ Hpost). by eexists.
  - intros H. apply fmap_is_Some in H. by eapply decode_app_ascii_inv.
Qed.

(** A line feed in the text comes from a line feed among the bytes. *)
Lemma decode_NL w t : decode w = Some t → NL ∈ t → LF ∈ w.
Proof.
  revert w. induction t as [|c t IH]; intros w Hw Hin.
  - by apply elem_of_nil in Hin.
  - apply decode_cons_inv in Hw as (rest & Hnext & Hrest).
    apply next_char_inv in Hnext as (e & -> & _ & _ & Hc).
    apply elem_of_app. apply elem_of_cons in Hin as [<-|Hin].
    + left. destruct Hc as [(b & -> & Hb & _)|[Hc _]].
      * symmetry in Hb. apply to_N_LF in Hb as ->. by left.
      * unfold NL in Hc. lia.
    + right. by eapply IH.
Qed.

(** *** The decoder is injective *)

Lemma to_N_inj b b' : Byte.to_N b = Byte.to_N b' → b = b'.
Proof.
  intros H%(f_equal Byte.of_N). rewrite !Byte.of_to_N in H. congruence.
Qed.

Lemma cont_value b :
  is_cont b = true →
  payload b = Byte.to_N b - 0x80
  ∧ 0x80 <= Byte.to_N b ∧ Byte.to_N b <= 0xBF.
Proof. destruct b; vm_compute; intros; (done || discriminate). Qed.

Lemma lead2_bits b :
  (Byte.to_N b <? 0xC2) = false → (Byte.to_N b <? 0xE0) = true →
  N.land (Byte.to_N b) 0x1F = Byte.to_N b - 0xC0
  ∧ 0xC2 <= Byte.to_N b ∧ Byte.to_N b < 0xE0.
Proof. destruct b; vm_compute; intros; (done || discriminate). Qed.

Lemma lead3_bits b :
  (Byte.to_N b <? 0xE0) = false → (Byte.to_N b <? 0xF0) = true →
  N.land (Byte.to_N b) 0x0F = Byte.to_N b - 0xE0
  ∧ 0xE0 <= Byte.to_N b ∧ Byte.to_N b < 0xF0.
Proof. destruct b; vm_compute; intros; (done || discriminate). Qed.

Lemma lead4_bits b :
  (Byte.to_N b <? 0xF0) = false → (Byte.to_N b <? 0xF5) = true →
  N.land (Byte.to_N b) 0x07 = Byte.to_N b - 0xF0
  ∧ 0xF0 <= Byte.to_N b ∧ Byte.to_N b < 0xF5.
Proof. destruct b; vm_compute; intros; (done || discriminate). Qed.

Lemma next_char_encoded s c rest :
  next_char s = Some (c, rest) → ∃ e, s = e ++ rest ∧ encoded e c.
Proof.
  intros H. destruct s as [|b0 s1]; [done|].
  unfold next_char in H. cbv zeta in H.
  destruct (Byte.to_N b0 <? 0x80) eqn:H80.
  { injection H as <- <-. exists [b0]. split; [done|].
    constructor. by apply N.ltb_lt. }
  destruct (Byte.to_N b0 <? 0xC2) eqn:HC2; [done|].
  destruct (Byte.to_N b0 <? 0xE0) eqn:HE0.
  { destruct s1 as [|b1 s2]; [done|].
    destruct (is_cont b1) eqn:Hc1; [|done].
    injection H as <- <-. exists [b0; b1]. split; [done|].
    destruct (lead2_bits b0 HC2 HE0) as (-> & ? & ?).
    destruct (cont_value b1 Hc1) as (-> & ? & ?).
    rewrite N.shiftl_mul_pow2. by constructor. }
  destruct (Byte.to_N b0 <? 0xF0) eqn:HF0.
  { destruct s1 as [|b1 [|b2 s3]]; [done | done |].
    destruct (between _ _ _ && is_cont b2) eqn:Hc; [|done].
    injection H as <- <-. exists [b0; b1; b2]. split; [done|].
    apply andb_true_iff in Hc as [[Hlo Hhi]%andb_true_iff Hc2].
    apply N.leb_le in Hlo, Hhi.
    assert (is_cont b1 = true) as Hc1.
    { unfold is_cont, between. apply andb_true_iff.
      rewrite !N.leb_le. destruct (_ =? 0xE0), (_ =? 0xED); lia. }
    destruct (lead3_bits b0 HE0 HF0) as (-> & ? & ?).
    destruct (cont_value b1 Hc1) as (-> & ? & ?).
    destruct (cont_value b2 Hc2) as (-> & ? & ?).
    rewrite !N.shiftl_mul_pow2. constructor; try done.
    - intros Hv. rewrite Hv in Hlo. exact Hlo.
    - intros Hv. rewrite Hv in Hhi. exact Hhi. }
  destruct (Byte.to_N b0 <? 0xF5) eqn:HF5; [|done].
  destruct s1 as [|b1 [|b2 [|b3 s4]]]; [done | done | done |].
  destruct (between _ _ _ && is_cont b2 && is_cont b3) eqn:Hc; [|done].
  injection H as <- <-. exists [b0; b1; b2; b3]. split; [done|].
  apply andb_true_iff in Hc
    as [[[Hlo Hhi]%andb_true_iff Hc2]%andb_true_iff Hc3].
  apply N.leb_le in Hlo, Hhi.
  assert (is_cont b1 = true) as Hc1.
  { unfold is_cont, between. apply andb_true_iff.
    rewrite !N.leb_le. destruct (_ =? 0xF0), (_ =? 0xF4); lia. }
  destruct (lead4_bits b0 HF0 HF5) as (-> & ? & ?).
  destruct (cont_value b1 Hc1) as (-> & ? & ?).
  destruct (cont_value b2 Hc2) as (-> & ? & ?).
  destruct (cont_value b3 Hc3) as (-> & ? & ?).
  rewrite !N.shiftl_mul_pow2. constructor; try done.
  - intros Hv. rewrite Hv in Hlo. exact Hlo.
  - intros Hv. rewrite Hv in Hhi. exact Hhi.
Qed.

(** A code point has one encoding. *)
Lemma encoded_inj e e' c : encoded e c → encoded e' c → e = e'.
Proof.
  intros He He'.
  inversion He; subst; inversion He' as [b'|b0' b1'|b0' b1' b2'|b0' b1' b2' b3'];
    subst;
    repeat match goal with v := Byte.to_N _ |- _ => subst v end;
    try (exfalso; lia).
  - f_equal. by apply to_N_inj.
  - assert (Byte.to_N b0 = Byte.to_N b0'
            ∧ Byte.to_N b1 = Byte.to_N b1') as [?%to_N_inj ?%to_N_inj]
      by lia.
    by subst.
  - assert (Byte.to_N b0 = Byte.to_N b0' ∧ Byte.to_N b1 = Byte.to_N b1'
            ∧ Byte.to_N b2 = Byte.to_N b2')
      as (?%to_N_inj & ?%to_N_inj & ?%to_N_inj) by lia.
    by subst.
  - assert (Byte.to_N b0 = Byte.to_N b0' ∧ Byte.to_N b1 = Byte.to_N b1'
            ∧ Byte.to_N b2 = Byte.to_N b2' ∧ Byte.to_N b3 = Byte.to_N b3')
      as (?%to_N_inj & ?%to_N_inj & ?%to_N_inj & ?%to_N_inj) by lia.
    by subst.
Qed.

(** Two byte strings with the same text are the same. *)
Lemma decode_inj w w' t : decode w = Some t → decode w' = Some t → w = w'.
Proof.
  revert w w'. induction t as [|c t IH]; intros w w' Hw Hw'.
  - apply decode_nil_inv in Hw, Hw'. by subst.
  - apply decode_cons_inv in Hw as (r & Hn & Hr).
    apply decode_cons_inv in Hw' as (r' & Hn' & Hr').
    apply next_char_encoded in Hn as (e & -> & He).
    apply next_char_encoded in Hn' as (e' & -> & He').
    by rewrite (encoded_inj _ _ _ He He'), (IH _ _ Hr Hr').
Qed.

End Utf8Facts.

(** ** File names and text lines *)

Lemma string_length_app (s t : string) :
  String.length (s +:+ t) = (String.length s + String.length t)%nat.
Proof.
  induction s as [|a s IH]; [done|].
  change (String a s +:+ t) with (String a (s +:+ t)). simpl. by rewrite IH.
Qed.

Lemma string_app_inj_r (s1 s2 t : string) : s1 +:+ t = s2 +:+ t → s1 = s2.
Proof.
  revert s2. induction s1 as [|a s1 IH]; intros [|b s2] H; [done | | |].
  - apply (f_equal String.length) in H.
    change (String b s2 +:+ t) with (String b (s2 +:+ t)) in H.
    change ("" +:+ t) with t in H. simpl in H.
    rewrite string_length_app in H. lia.
  - apply (f_equal String.length) in H.
    change (String a s1 +:+ t) with (String a (s1 +:+ t)) in H.
    change ("" +:+ t) with t in H. simpl in H.
    rewrite string_length_app in H. lia.
  - change (String a s1 +:+ t) with (String a (s1 +:+ t)) in H.
    change (String b s2 +:+ t) with (String b (s2 +:+ t)) in H.
    injection H as -> H. f_equal. by apply IH.
Qed.

(** Different lengths give different files. *)
#[global] Instance file_name_inj : Inj (=) (=) file_name.
Proof.
  intros n m H. unfold file_name in H.
  apply string_app_inj_r in H. by apply (inj pretty).
Qed.

Lemma unlines_app ts1 ts2 : unlines (ts1 ++ ts2) = unlines ts1 ++ unlines ts2.
Proof.
  induction ts1 as [|t ts1 IH]; simpl; [done|].
  by rewrite IH, <-app_assoc.
Qed.

(** Reading back a file of lines that contain no line feed gives the
    lines. *)
Lemma text_lines_unlines ts :
  Forall (λ t, NL ∉ t) ts → text_lines (unlines ts) = ts.
Proof.
  induction 1 as [|t ts Ht _ IH]; simpl; [done|].
  induction t as [|c t IHt]; simpl.
  - by rewrite IH.
  - apply not_elem_of_cons in Ht as [Hc Ht].
    rewrite bool_decide_eq_false_2 by done. by rewrite IHt.
Qed.

(** ** Traces *)

Module TraceFacts.

Lemma elem_of_opens t nm : nm ∈ opens t ↔ EvOpen nm ∈ t.
Proof.
  unfold opens. rewrite list_elem_of_omap. split.
  - intros ([] & Hin & [= ->]). done.
  - intros Hin. by exists (EvOpen nm).
Qed.

Lemma elem_of_closes t nm : nm ∈ closes t ↔ EvClose nm ∈ t.
Proof.
  unfold closes. rewrite list_elem_of_omap. split.
  - intros ([] & Hin & [= ->]). done.
  - intros Hin. by exists (EvClose nm).
Qed.

Lemma closes_nil t nm : closes t = [] → EvClose nm ∉ t.
Proof.
  intros H Hin%elem_of_closes. rewrite H in Hin.
  by apply elem_of_nil in Hin.
Qed.

Lemma snoc_split {A} (t t1 t2 : list A) e x :
  t ++ [e] = t1 ++ x :: t2 →
  (t2 = [] ∧ t1 = t ∧ x = e) ∨ (∃ t2', t2 = t2' ++ [e] ∧ t = t1 ++ x :: t2').
Proof.
  intros H. destruct (decide (t2 = [])) as [->|Hne].
  - left. apply app_inj_tail in H as [-> ->]. done.
  - right. destruct (exists_last Hne) as (t2' & e' & ->).
    exists t2'. change (x :: t2' ++ [e']) with ((x :: t2') ++ [e']) in H.
    rewrite app_assoc in H. apply app_inj_tail in H as [-> ->]. done.
Qed.

Lemma open_before_write_snoc t e :
  open_before_write t →
  (∀ nm s, e = EvWrite nm s → EvOpen nm ∈ t ∧ EvClose nm ∉ t) →
  open_before_write (t ++ [e]).
Proof.
  intros Ht He t1 nm s t2 Heq.
  apply snoc_split in Heq as [(_ & -> & Hw)|(t2' & _ & ->)].
  - by eapply He.
  - by eapply Ht.
Qed.

Lemma open_then_write_snoc t e :
  open_then_write t →
  (∀ t' nm, t = t' ++ [EvOpen nm] → ∃ s, e = EvWrite nm s) →
  open_then_write (t ++ [e]).
Proof.
  intros Ht He t1 nm e' t2 Heq.
  apply snoc_split in Heq as [([=] & _)|(t2' & Ht2 & ->)].
  destruct t2' as [|e'' t2'']; simpl in Ht2.
  - injection Ht2 as -> ->. by eapply He.
  - injection Ht2 as -> ->. by eapply Ht.
Qed.

End TraceFacts.

(** ** The words of a source and what a run makes of them *)

Lemma written_all ws : Forall valid ws → written ws = ws.
Proof.
  induction 1 as [|w ws Hw _ IH]; simpl; [done|].
  by rewrite decide_True, IH.
Qed.

Lemma attempted_all ws : Forall valid ws → attempted ws = ws.
Proof.
  induction 1 as [|w ws Hw _ IH]; simpl; [done|].
  by rewrite decide_True, IH.
Qed.

Lemma written_valid ws : Forall valid (written ws).
Proof.
  induction ws as [|w ws IH]; simpl; [done|].
  case_decide; by constructor.
Qed.

(** When some word is not valid, the run stops at the first such word
    [bad]: the words before it are written, and [bad] is attempted. *)
Lemma first_invalid ws :
  ¬ Forall valid ws →
  ∃ bad rest,
    ws = written ws ++ bad :: rest ∧ ¬ valid bad
    ∧ attempted ws = written ws ++ [bad].
Proof.
  induction ws as [|w ws IH]; intros Hnot; simpl.
  - by destruct Hnot.
  - case_decide as Hw.
    + destruct IH as (bad & rest & Heq & Hbad & Hatt).
      { intros Hall. apply Hnot. by constructor. }
      exists bad, rest. simpl. by rewrite Hatt, <-Heq.
    + by exists w, ws.
Qed.

Lemma bucket_snoc n ws w :
  bucket n (ws ++ [w])
  = bucket n ws ++ (if decide (length w = n) then [text_of w] else []).
Proof.
  unfold bucket. rewrite filter_app, fmap_app. f_equal.
  rewrite filter_cons, filter_nil. by case_decide.
Qed.

Lemma bucket_nil n ws : n ∉ length <$> ws → bucket n ws = [].
Proof.
  intros Hn. unfold bucket.
  induction ws as [|w ws IH]; [done|].
  rewrite fmap_cons, not_elem_of_cons in Hn. destruct Hn as [Hne Hn].
  rewrite filter_cons, decide_False by done. by apply IH.
Qed.

Lemma snoc_ne {A} (l : list A) x : l ≠ l ++ [x].
Proof.
  intros H%(f_equal length). rewrite length_app in H. simpl in H. lia.
Qed.

(** ** The loop invariant *)

Lemma inv_initial d0 : inv d0 [] [] (initial d0).
Proof.
  split; simpl; try done.
  - constructor.
  - intros t1 nm s t2 H. by destruct t1.
  - intros t1 nm e t2 H. by destruct t1.
  - intros t nm H. by destruct t.
Qed.

Lemma open_bucket_run n σ :
  open_bucket n σ =
    (if Dict.contains n (dictFiles σ) then σ
     else State (Dict.set n (TextIO (file_name n) [] false) (dictFiles σ))
            (<[file_name n := []]> (disk σ))
            (trace σ ++ [EvOpen (file_name n)]),
     Ok tt).
Proof.
  unfold open_bucket, bind, dict_contains.
  by destruct (Dict.contains n (dictFiles σ)).
Qed.

(** Lines 11-12 on the word [w]. *)
Lemma inv_open d0 ws w σ :
  inv d0 ws ws σ →
  inv d0 (ws ++ [w]) ws (open_bucket (length w) σ).1.
Proof.
  intros [Hnd Hdom Hobj Hdisk Hop Hwr Hcl Hobw Hotw Hlast].
  assert (∀ t nm, trace σ ≠ t ++ [EvOpen nm]) as Hnolast.
  { intros t nm (w' & Habs & _)%Hlast. by apply snoc_ne in Habs. }
  rewrite open_bucket_run.
  destruct (Dict.contains _ _) eqn:Hc; simpl.
  - apply DictFacts.contains_true in Hc. split; try done.
    + intros n. rewrite Hdom, fmap_app, elem_of_app. split; [by left|].
      intros [?|Hn%list_elem_of_singleton]; [done|].
      subst n. by apply Hdom.
    + intros t nm Ht. by destruct (Hnolast _ _ Ht).
  - apply DictFacts.contains_false in Hc.
    assert (Dict.keys (Dict.set (length w)
                         (TextIO (file_name (length w)) [] false)
                         (dictFiles σ))
            = Dict.keys (dictFiles σ) ++ [length w]) as Hkeys.
    { rewrite DictFacts.keys_set.
      by rewrite (proj2 (DictFacts.contains_false _ _) Hc). }
    split; simpl; rewrite ?Hkeys.
    + apply NoDup_app. split_and!; [done | | apply NoDup_singleton].
      intros n Hn ->%list_elem_of_singleton. done.
    + intros n. by rewrite fmap_app, !elem_of_app, Hdom.
    + intros n f. rewrite DictFacts.get_set. case_decide as Hn.
      * intros [= <-]. subst n. rewrite bucket_nil; [done|].
        by rewrite <-Hdom.
      * apply Hobj.
    + intros nm. rewrite fmap_app. simpl.
      destruct (decide (nm = file_name (length w))) as [->|Hne].
      * rewrite lookup_insert_eq, decide_True; [done|].
        apply elem_of_app. right. by left.
      * rewrite lookup_insert_ne, Hdisk by done.
        destruct (decide (nm ∈ file_name <$> Dict.keys (dictFiles σ))).
        -- rewrite decide_True; [done|]. apply elem_of_app. by left.
        -- rewrite decide_False; [done|].
           by intros [?|?%list_elem_of_singleton]%elem_of_app.
    + unfold opens in *. rewrite omap_app, Hop, fmap_app. done.
    + unfold writes in *. rewrite omap_app, Hwr. simpl. by rewrite app_nil_r.
    + unfold closes in *. rewrite omap_app, Hcl. done.
    + by apply TraceFacts.open_before_write_snoc.
    + apply TraceFacts.open_then_write_snoc; [done|].
      intros t nm Ht. by destruct (Hnolast _ _ Ht).
    + intros t nm [_ [= <-]]%app_inj_tail. by exists w.
Qed.

(** Line 14 on a valid word [w]. *)
Lemma inv_write d0 ws w text σ :
  inv d0 (ws ++ [w]) ws σ →
  Utf8.decode w = Some text →
  ∃ σ', file_write (length w) (text ++ [NL]) σ = (σ', Ok tt)
        ∧ inv d0 (ws ++ [w]) (ws ++ [w]) σ'.
Proof.
  intros [Hnd Hdom Hobj Hdisk Hop Hwr Hcl Hobw Hotw Hlast] Hw.
  assert (length w ∈ Dict.keys (dictFiles σ)) as Hin.
  { apply Hdom. rewrite fmap_app, elem_of_app. right. by left. }
  destruct (proj2 (DictFacts.get_is_Some _ _) Hin) as [f Hf].
  pose proof (Hobj _ _ Hf) as ->.
  unfold file_write. rewrite Hf. simpl. eexists. split; [done|].
  assert (Dict.keys (Dict.set (length w)
                       (TextIO (file_name (length w))
                          (unlines (bucket (length w) ws) ++ text ++ [NL])
                          false) (dictFiles σ))
          = Dict.keys (dictFiles σ)) as Hkeys.
  { rewrite DictFacts.keys_set.
    by rewrite (proj2 (DictFacts.contains_true _ _) Hin). }
  assert (text_of w = text) as Htext by (unfold text_of; by rewrite Hw).
  split; simpl; rewrite ?Hkeys; try done.
  - intros n f. rewrite DictFacts.get_set, bucket_snoc, unlines_app.
    case_decide as Hn.
    + intros [= <-]. subst n. rewrite decide_True by done.
      simpl. by rewrite Htext.
    + rewrite decide_False by done. simpl. rewrite app_nil_r. apply Hobj.
  - unfold opens in *. rewrite omap_app, Hop. simpl. by rewrite app_nil_r.
  - unfold writes in *. rewrite omap_app, Hwr, fmap_app. simpl.
    unfold write_of. by rewrite Htext.
  - unfold closes in *. rewrite omap_app, Hcl. done.
  - apply TraceFacts.open_before_write_snoc; [done|].
    intros nm s [= <- _]. split.
    + apply TraceFacts.elem_of_opens. rewrite Hop.
      by apply list_elem_of_fmap_2.
    + by apply TraceFacts.closes_nil.
  - apply TraceFacts.open_then_write_snoc; [done|].
    intros t nm (w' & Heq & ->)%Hlast.
    apply app_inj_tail in Heq as [_ <-]. by eexists.
  - intros t nm [_ [=]]%app_inj_tail.
Qed.

(** One iteration of the loop. *)
Lemma loop_body_run line σ :
  is_Some (Dict.get (length (Bytes.strip line))
             (dictFiles (open_bucket (length (Bytes.strip line)) σ).1)) →
  loop_body line σ =
    let w := Bytes.strip line in
    let σ1 := (open_bucket (length w) σ).1 in
    match Utf8.decode w with
    | Some text => file_write (length w) (text ++ [NL]) σ1
    | None => (σ1, Raise UnicodeDecodeError)
    end.
Proof.
  intros [f Hf]. unfold loop_body, bind at 1.
  rewrite open_bucket_run in *. simpl in *.
  unfold bind, dict_getitem. rewrite Hf.
  unfold bytes_decode. by destruct (Utf8.decode _).
Qed.

(** The loop of lines 7-14, from a state in which the words [pws] have
    been written: the valid words at the head of the lines are written,
    and the loop ends there with [UnicodeDecodeError] unless all the
    lines are valid. *)
Lemma loop_spec d0 ls pws σ :
  inv d0 pws pws σ →
  let ws := Bytes.strip <$> ls in
  let r := for_each ls loop_body σ in
  inv d0 (pws ++ attempted ws) (pws ++ written ws) r.1
  ∧ r.2 = if decide (Forall valid ws) then Ok tt
          else Raise UnicodeDecodeError.
Proof.
  revert pws σ. induction ls as [|line ls IH]; intros pws σ Hinv; simpl.
  - rewrite !app_nil_r. by split.
  - pose proof (inv_open _ _ (Bytes.strip line) _ Hinv) as Hopen.
    unfold bind. rewrite loop_body_run; cycle 1.
    { apply DictFacts.get_is_Some, (inv_dom _ _ _ _ Hopen).
      rewrite fmap_app, elem_of_app. right. by left. }
    simpl. case_decide as Hv.
    + destruct Hv as [text Hw]. rewrite Hw.
      destruct (inv_write _ _ _ _ _ Hopen Hw) as (σ' & -> & Hinv').
      destruct (IH _ _ Hinv') as [IH1 IH2].
      rewrite <-!app_assoc in IH1. simpl in IH1. split; [done|].
      rewrite IH2.
      destruct (decide (Forall valid (Bytes.strip <$> ls))) as [Hall|Hnot].
      * rewrite decide_True; [done|].
        constructor; [by eexists | exact Hall].
      * rewrite decide_False; [done|].
        intros Hall. apply Hnot.
        apply Forall_cons in Hall as [_ Hall]. exact Hall.
    + destruct (Utf8.decode _) as [text|] eqn:Hw.
      { exfalso. apply Hv. unfold valid. rewrite Hw. by eexists. }
      simpl. rewrite app_nil_r. split; [done|].
      rewrite decide_False; [done|].
      intros Hall. apply Hv.
      apply Forall_cons in Hall as [Hline _]. exact Hline.
Qed.

(** ** Closing the files *)

(** The loop of lines 16-17 over the references [ks], when they refer to
    distinct open files. *)
Lemma close_loop ks σ :
  NoDup ks →
  (∀ k, k ∈ ks →
     ∃ f, Dict.get k (dictFiles σ) = Some f
          ∧ closed f = false ∧ name f = file_name k) →
  ∃ σ',
    for_each ks file_close σ = (σ', Ok tt)
    ∧ Dict.keys (dictFiles σ') = Dict.keys (dictFiles σ)
    ∧ (∀ k f, k ∈ ks → Dict.get k (dictFiles σ) = Some f →
         Dict.get k (dictFiles σ') = Some (TextIO (name f) [] true)
         ∧ disk σ' !! file_name k
           = Some (default [] (disk σ !! file_name k) ++ buffer f))
    ∧ (∀ k, k ∉ ks → Dict.get k (dictFiles σ') = Dict.get k (dictFiles σ))
    ∧ (∀ nm, nm ∉ file_name <$> ks → disk σ' !! nm = disk σ !! nm)
    ∧ trace σ' = trace σ ++ ((λ k, EvClose (file_name k)) <$> ks).
Proof.
  intros Hnd. revert σ.
  induction Hnd as [|k ks Hk Hnd IH]; intros σ Hopen.
  - exists σ. simpl. rewrite app_nil_r. split_and!; try done.
    intros k f Hin. by apply elem_of_nil in Hin.
  - destruct (Hopen k) as (f & Hf & Hcl & Hname); [by left|].
    simpl. unfold bind, file_close at 1. rewrite Hf, Hcl.
    set (σ1 := State _ _ _).
    assert (∀ k', k' ≠ k →
              Dict.get k' (dictFiles σ1) = Dict.get k' (dictFiles σ)) as Hget.
    { intros k' Hne. simpl. by rewrite DictFacts.get_set_ne. }
    assert (∀ nm, nm ≠ file_name k → disk σ1 !! nm = disk σ !! nm) as Hdisk.
    { intros nm Hne. simpl. rewrite Hname. by rewrite lookup_insert_ne. }
    destruct (IH σ1) as (σ' & Hrun & Hkeys & Hin & Hout & Hother & Htr).
    { intros k' Hk'. rewrite Hget by (by intros ->).
      apply Hopen. by right. }
    exists σ'. split_and!.
    + done.
    + rewrite Hkeys. simpl. rewrite DictFacts.keys_set.
      assert (Dict.contains k (dictFiles σ) = true) as ->; [|done].
      apply DictFacts.contains_true, DictFacts.get_is_Some. by eexists.
    + intros k0 f0 [->|Hk0]%elem_of_cons Hf0.
      * rewrite Hf in Hf0. injection Hf0 as <-.
        rewrite Hout by done. rewrite Hother.
        -- simpl. by rewrite DictFacts.get_set_eq, Hname, lookup_insert_eq.
        -- intros (k' & Heq%(inj file_name) & Hk')%list_elem_of_fmap.
           by subst.
      * assert (k0 ≠ k) as Hne by (by intros ->).
        destruct (Hin k0 f0) as [-> ->]; [done | by rewrite Hget |].
        rewrite Hdisk; [done|]. by intros ?%(inj file_name).
    + intros k0 [Hne Hk0]%not_elem_of_cons. by rewrite Hout, Hget.
    + intros nm Hnm. change (nm ∉ file_name k :: (file_name <$> ks)) in Hnm.
      apply not_elem_of_cons in Hnm as [Hne Hnm].
      by rewrite Hother, Hdisk.
    + rewrite Htr. simpl. by rewrite Hname, <-app_assoc.
Qed.

Lemma close_files_spec d0 ws σ :
  inv d0 ws ws σ →
  ∃ σ', close_files σ = (σ', Ok tt) ∧ completed d0 ws σ'.
Proof.
  intros [Hnd Hdom Hobj Hdisk Hop Hwr Hcl Hobw Hotw Hlast].
  destruct (close_loop (Dict.keys (dictFiles σ)) σ Hnd)
    as (σ' & Hrun & Hkeys & Hin & Hout & Hother & Htr).
  { intros k [f Hf]%DictFacts.get_is_Some. exists f.
    pose proof (Hobj _ _ Hf) as Heq. by rewrite Heq in *. }
  exists σ'. split; [done|]. split; rewrite ?Hkeys; try done.
  - intros n f Hf.
    assert (n ∈ Dict.keys (dictFiles σ)) as Hn.
    { rewrite <-Hkeys. apply DictFacts.get_is_Some. by eexists. }
    destruct (proj2 (DictFacts.get_is_Some _ _) Hn) as [f0 Hf0].
    destruct (Hin _ _ Hn Hf0) as [Hf' _].
    rewrite Hf in Hf'. injection Hf' as ->.
    by rewrite (Hobj _ _ Hf0).
  - intros n Hn.
    destruct (proj2 (DictFacts.get_is_Some _ _) Hn) as [f0 Hf0].
    destruct (Hin _ _ Hn Hf0) as [_ ->].
    rewrite Hdisk, decide_True by (by apply list_elem_of_fmap_2).
    by rewrite (Hobj _ _ Hf0).
  - intros nm Hnm. by rewrite Hother, Hdisk, decide_False.
  - exists (trace σ). split_and!; try done.
    intros t' nm (w & Habs & _)%Hlast. by apply snoc_ne in Habs.
Qed.

(** ** The whole run *)

Lemma run_unfold src d0 :
  run src d0 =
    match for_each (Bytes.readlines src) loop_body (initial d0) with
    | (σ, Ok _) => close_files σ
    | (σ, Raise e) => (σ, Raise e)
    end.
Proof. done. Qed.

(** When every word is valid, the run comes to its end. *)
Lemma run_ok src d0 :
  Forall valid (words src) →
  ∃ σ, run src d0 = (σ, Ok tt) ∧ completed d0 (words src) σ.
Proof.
  intros Hall. rewrite run_unfold.
  destruct (loop_spec d0 (Bytes.readlines src) [] _ (inv_initial d0))
    as [Hinv Hres].
  fold (words src) in Hinv, Hres. simpl in Hinv.
  rewrite written_all, attempted_all in Hinv by done.
  rewrite decide_True in Hres by done.
  destruct (for_each _ _ _) as [σ r]. simpl in *. subst r.
  by apply close_files_spec.
Qed.

(** Otherwise it stops in the loop, at the first word that is not
    valid, with [UnicodeDecodeError]. *)
Lemma run_fail src d0 :
  ¬ Forall valid (words src) →
  ∃ σ, run src d0 = (σ, Raise UnicodeDecodeError)
       ∧ inv d0 (attempted (words src)) (written (words src)) σ.
Proof.
  intros Hnot. rewrite run_unfold.
  destruct (loop_spec d0 (Bytes.readlines src) [] _ (inv_initial d0))
    as [Hinv Hres].
  fold (words src) in Hinv, Hres. simpl in Hinv.
  rewrite decide_False in Hres by done.
  destruct (for_each _ _ _) as [σ r]. simpl in *. subst r.
  by exists σ.
Qed.

Lemma run_cases src d0 :
  (Forall valid (words src)
   ∧ ∃ σ, run src d0 = (σ, Ok tt) ∧ completed d0 (words src) σ)
  ∨ (¬ Forall valid (words src)
     ∧ ∃ σ, run src d0 = (σ, Raise UnicodeDecodeError)
            ∧ inv d0 (attempted (words src)) (written (words src)) σ).
Proof.
  destruct (decide (Forall valid (words src))) as [Hall|Hnot].
  - left. split; [done|]. by apply run_ok.
  - right. split; [done|]. by apply run_fail.
Qed.

(** ** What a run leaves behind *)

Lemma writes_closes (ks : list nat) :
  writes ((λ k, EvClose (file_name k)) <$> ks) = [].
Proof. by induction ks. Qed.

Lemma opens_closes (ks : list nat) :
  opens ((λ k, EvClose (file_name k)) <$> ks) = [].
Proof. by induction ks. Qed.

Lemma run_result src d0 :
  (run src d0).2
  = if decide (Forall valid (words src)) then Ok tt
    else Raise UnicodeDecodeError.
Proof.
  destruct (run_cases src d0) as [[Hall (σ & -> & _)]|[Hnot (σ & -> & _)]].
  - by rewrite decide_True.
  - by rewrite decide_False.
Qed.

Lemma run_keys src d0 n :
  n ∈ Dict.keys (dictFiles (run src d0).1)
  ↔ n ∈ length <$> attempted (words src).
Proof.
  destruct (run_cases src d0) as [[Hall (σ & -> & Hfin)]|[Hnot (σ & -> & Hinv)]].
  - rewrite attempted_all by done. apply (fin_dom _ _ _ Hfin).
  - apply (inv_dom _ _ _ _ Hinv).
Qed.

Lemma run_nodup src d0 : NoDup (Dict.keys (dictFiles (run src d0).1)).
Proof.
  destruct (run_cases src d0) as [[Hall (σ & -> & Hfin)]|[Hnot (σ & -> & Hinv)]].
  - apply (fin_nodup _ _ _ Hfin).
  - apply (inv_nodup _ _ _ _ Hinv).
Qed.

Lemma run_writes src d0 :
  writes (trace (run src d0).1) = write_of <$> written (words src).
Proof.
  destruct (run_cases src d0) as [[Hall (σ & -> & Hfin)]|[Hnot (σ & -> & Hinv)]].
  - destruct (fin_trace _ _ _ Hfin) as (t & Ht & _ & Hw & _). simpl.
    rewrite Ht. unfold writes in *.
    rewrite omap_app, Hw. fold (writes ((λ k, EvClose (file_name k)) <$>
      Dict.keys (dictFiles σ))).
    by rewrite writes_closes, app_nil_r, written_all.
  - apply (inv_writes _ _ _ _ Hinv).
Qed.

Lemma run_opens src d0 :
  opens (trace (run src d0).1)
  = file_name <$> Dict.keys (dictFiles (run src d0).1).
Proof.
  destruct (run_cases src d0) as [[Hall (σ & -> & Hfin)]|[Hnot (σ & -> & Hinv)]].
  - destruct (fin_trace _ _ _ Hfin) as (t & Ht & Ho & _). simpl.
    rewrite Ht. unfold opens in *.
    rewrite omap_app, Ho. fold (opens ((λ k, EvClose (file_name k)) <$>
      Dict.keys (dictFiles σ))).
    by rewrite opens_closes, app_nil_r.
  - apply (inv_opens _ _ _ _ Hinv).
Qed.

(** The content of an output file, in a run that was stopped as in a run
    that came to its end: the words of its length that were written, in
    the order of the source, each followed by a line feed. *)
Lemma run_view src d0 n :
  n ∈ Dict.keys (dictFiles (run src d0).1) →
  file_view (run src d0).1 n
  = Some (unlines (bucket n (written (words src)))).
Proof.
  destruct (run_cases src d0) as [[Hall (σ & -> & Hfin)]|[Hnot (σ & -> & Hinv)]];
    simpl; intros Hn;
    destruct (proj2 (DictFacts.get_is_Some _ _) Hn) as [f Hf];
    unfold file_view; rewrite Hf.
  - rewrite (fin_obj _ _ _ Hfin _ _ Hf). simpl.
    rewrite (fin_disk _ _ _ Hfin _ Hn). simpl.
    by rewrite app_nil_r, written_all.
  - rewrite (inv_obj _ _ _ _ Hinv _ _ Hf). simpl.
    rewrite (inv_disk _ _ _ _ Hinv).
    by rewrite decide_True by (by apply list_elem_of_fmap_2).
Qed.

Lemma written_elem ws w : w ∈ written ws → w ∈ ws ∧ valid w.
Proof.
  induction ws as [|w0 ws IH]; simpl; [by intros ?%elem_of_nil|].
  case_decide; [|by intros ?%elem_of_nil].
  intros [->|[? ?]%IH]%elem_of_cons; split; try done; [by left | by right].
Qed.

Lemma elem_of_bucket n ws t :
  t ∈ bucket n ws ↔ ∃ w, w ∈ ws ∧ length w = n ∧ t = text_of w.
Proof.
  unfold bucket. rewrite list_elem_of_fmap. split.
  - intros (w & -> & [? ?]%list_elem_of_filter). by exists w.
  - intros (w & ? & ? & ->). exists w. split; [done|].
    by apply list_elem_of_filter.
Qed.

(** The words of a source contain no line feed, nor do their texts. *)
Lemma words_no_LF src w : w ∈ words src → LF ∉ w.
Proof.
  unfold words. intros (line & -> & Hline)%list_elem_of_fmap.
  by eapply BytesFacts.strip_line_no_lf.
Qed.

Lemma text_no_NL src w : w ∈ words src → NL ∉ text_of w.
Proof.
  intros Hw%words_no_LF. unfold text_of.
  destruct (Utf8.decode w) as [t|] eqn:Ht; simpl.
  - intros Hin. by apply (Utf8Facts.decode_NL _ _ Ht) in Hin.
  - by intros ?%elem_of_nil.
Qed.

(** Reading an output file line by line gives back the texts of its
    words. *)
Lemma bucket_lines src n ws :
  ws ⊆ words src → text_lines (unlines (bucket n ws)) = bucket n ws.
Proof.
  intros Hsub. apply text_lines_unlines, Forall_forall.
  intros t (w & Hw & _ & ->)%elem_of_bucket.
  eapply text_no_NL. by apply Hsub.
Qed.

Lemma written_sub ws : written ws ⊆ ws.
Proof. intros w. by intros [? _]%written_elem. Qed.

(** * The claims of the specification *)

(** ** C1: the length that selects the file *)

(** C1, as stated, fails on the source [b"\xc3\xa9\n"], the word "é":
    its text has one character and it is written to [2.txt], the file
    of its two bytes; nothing is written to [1.txt]. *)
Lemma C1_counterexample : ¬ char_count_bucketing [xc3; xa9; x0a] ∅.
Proof.
  intros H. specialize (H [xc3; xa9] [233]).
  assert (writes (trace (run [xc3; xa9; x0a] ∅).1)
          = [(file_name 2, [233; 10])]) as Hw by (vm_compute; reflexivity).
  rewrite Hw in H.
  assert ((file_name (length [233]), [233] ++ [NL])
          ∈ [(file_name 2, [233; 10])]) as Hin.
  { apply H; [|reflexivity]. by apply list_elem_of_singleton. }
  apply list_elem_of_singleton in Hin. by vm_compute in Hin.
Qed.

(** C1, amended: the file a word is written to is the one named after
    the number of bytes of the stripped line ([len] is applied to the
    [bytes] object, line 9, before it is decoded, line 14): the writes
    of a run are, in order, those of the text of each word to the file
    of its byte count. *)
Theorem C1_bucket_is_byte_count src d0 :
  writes (trace (run src d0).1)
  = (λ w, (file_name (length w), text_of w ++ [NL]))
      <$> written (words src).
Proof. apply run_writes. Qed.

(** ** C4: what is stripped *)

(** C4, as stated, fails on the source [b" a b\n"]: what is written is
    ["a b\n"], without the leading space. *)
Lemma C4_counterexample :
  ¬ leading_whitespace_kept [x20; x61; x20; x62; x0a] ∅.
Proof.
  intros H. specialize (H [x20; x61; x20; x62; x0a]).
  assert ((writes (trace (run [x20; x61; x20; x62; x0a] ∅).1)).*2
          = [[97; 32; 98; 10]]) as Hw by (vm_compute; reflexivity).
  rewrite Hw in H.
  assert (text_of (Bytes.rstrip [x20; x61; x20; x62; x0a]) ++ [NL]
          ∈ [[97; 32; 98; 10]]) as Hin.
  { apply H. by apply list_elem_of_singleton. }
  apply list_elem_of_singleton in Hin. by vm_compute in Hin.
Qed.

(** C4, amended: [bytes.strip] removes the ASCII whitespace at both ends
    of the line, and what is between is kept as it is: the texts
    written are those of the stripped lines, and a stripped line is the
    line without a prefix and a suffix made of whitespace, neither
    beginning nor ending with whitespace. *)
Theorem C4_strip_both_ends src d0 :
  (writes (trace (run src d0).1)).*2
  = (λ w, text_of w ++ [NL])
      <$> written (Bytes.strip <$> Bytes.readlines src)
  ∧ ∀ line, ∃ pre post,
      line = pre ++ Bytes.strip line ++ post
      ∧ Bytes.all_space pre ∧ Bytes.all_space post
      ∧ Bytes.trimmed (Bytes.strip line).
Proof.
  split; [|apply BytesFacts.strip_spec].
  rewrite run_writes, <-list_fmap_compose. done.
Qed.

(** ** C8: the empty source *)

(** C8: on a source without lines no file is opened, the directory is
    left as it was, and the run ends without an exception, with exit
    status 0. *)
Theorem C8_empty_source src d0 :
  Bytes.readlines src = [] →
  run src d0 = (initial d0, Ok tt)
  ∧ exit_status (run src d0).2 = 0%nat
  ∧ opens (trace (run src d0).1) = []
  ∧ disk (run src d0).1 = d0.
Proof. intros ->%BytesFacts.readlines_nil. done. Qed.

Lemma C8_witness :
  Bytes.readlines [] = []
  ∧ run [] ∅ = (initial ∅, Ok tt)
  ∧ exit_status (run [] ∅).2 = 0%nat
  ∧ opens (trace (run [] ∅).1) = []
  ∧ disk (run [] ∅).1 = ∅.
Proof. split; [reflexivity | apply (C8_empty_source [] ∅); reflexivity]. Defined.

(** ** The scenario of the specification *)

Example scenario_files :
  let σ := (run src_scenario ∅).1 in
  disk σ !! "3.txt"
  = Some [99; 97; 116; 10; 100; 111; 103; 10; 98; 101; 101; 10]
  ∧ disk σ !! "8.txt" = Some [97; 110; 116; 101; 108; 111; 112; 101; 10]
  ∧ dom (disk σ) = {["3.txt"; "8.txt"]}
  ∧ (run src_scenario ∅).2 = Ok tt.
Proof. vm_compute. split_and!; reflexivity. Qed.

(** All the lines are valid exactly when all the words are. *)
Lemma valid_words src :
  Forall valid (words src)
  ↔ ∀ line, line ∈ Bytes.readlines src → is_Some (Utf8.decode line).
Proof.
  unfold words. rewrite Forall_fmap, Forall_forall.
  split; intros H line Hline; apply Utf8Facts.decode_strip_is_Some, H, Hline.
Qed.

Lemma written_app_invalid pre bad rest :
  Forall valid pre → ¬ valid bad →
  written (pre ++ bad :: rest) = pre
  ∧ attempted (pre ++ bad :: rest) = pre ++ [bad].
Proof.
  intros Hpre Hbad. induction Hpre as [|w pre Hw _ [IH1 IH2]]; simpl.
  - by rewrite !decide_False.
  - by rewrite !decide_True, IH1, IH2.
Qed.

(** ** C5: a line that is not valid UTF-8 *)

(** C5: when some line is not valid UTF-8, the run ends with
    [UnicodeDecodeError], hence a non-zero exit status; the words then
    split into the valid words [pre] that come before the first word
    [bad] that is not valid, and the rest; the writes of the run are
    those of the words of [pre], so that nothing of [bad] is written,
    and the file of each length of [pre] holds the words of [pre] of
    that length. *)
Theorem C5_invalid_line_aborts src d0 :
  (∃ line, line ∈ Bytes.readlines src ∧ Utf8.decode line = None) →
  (run src d0).2 = Raise UnicodeDecodeError
  ∧ exit_status (run src d0).2 ≠ 0%nat
  ∧ ∃ pre bad rest,
      words src = pre ++ bad :: rest
      ∧ Forall valid pre ∧ ¬ valid bad
      ∧ writes (trace (run src d0).1) = write_of <$> pre
      ∧ ∀ n, n ∈ length <$> pre →
          file_view (run src d0).1 n = Some (unlines (bucket n pre)).
Proof.
  intros (line & Hline & Hdec).
  assert (¬ Forall valid (words src)) as Hnot.
  { intros Hall.
    destruct (proj1 (valid_words src) Hall _ Hline) as [t Ht]. congruence. }
  rewrite run_result, decide_False by done. split_and!; [done | done |].
  destruct (first_invalid _ Hnot) as (bad & rest & Heq & Hbad & Hatt).
  exists (written (words src)), bad, rest.
  split_and!; [done | apply written_valid | done | apply run_writes |].
  intros n Hn. apply run_view, run_keys.
  rewrite Hatt, fmap_app, elem_of_app. by left.
Qed.

Lemma C5_witness :
  (∃ line, line ∈ Bytes.readlines src_invalid ∧ Utf8.decode line = None)
  ∧ (run src_invalid ∅).2 = Raise UnicodeDecodeError
  ∧ exit_status (run src_invalid ∅).2 ≠ 0%nat
  ∧ ∃ pre bad rest,
      words src_invalid = pre ++ bad :: rest
      ∧ Forall valid pre ∧ ¬ valid bad
      ∧ writes (trace (run src_invalid ∅).1) = write_of <$> pre
      ∧ ∀ n, n ∈ length <$> pre →
          file_view (run src_invalid ∅).1 n = Some (unlines (bucket n pre)).
Proof.
  assert (∃ line, line ∈ Bytes.readlines src_invalid
                  ∧ Utf8.decode line = None) as H.
  { exists [xff; xff; x0a]. split; [|reflexivity].
    vm_compute. right. left. }
  split; [exact H | apply (C5_invalid_line_aborts src_invalid ∅ H)].
Defined.

(** ** C10: the file of the line that is not valid *)

(** C10: when the words are the valid words [pre], then a word [bad]
    that is not valid, the run ends with [UnicodeDecodeError] after the
    file for the length of [bad] has been opened: the file exists and
    [dictFiles] has its entry, it holds the words of [pre] of that
    length and nothing of [bad]; when no word of [pre] has that length,
    the opening of the file is the last operation of the run, and the
    file is empty whatever the directory contained. *)
Theorem C10_file_opened_before_decoding src d0 pre bad rest :
  words src = pre ++ bad :: rest →
  Forall valid pre → ¬ valid bad →
  let σ := (run src d0).1 in
  let n := length bad in
  (run src d0).2 = Raise UnicodeDecodeError
  ∧ n ∈ Dict.keys (dictFiles σ)
  ∧ is_Some (disk σ !! file_name n)
  ∧ file_view σ n = Some (unlines (bucket n pre))
  ∧ writes (trace σ) = write_of <$> pre
  ∧ (n ∉ length <$> pre →
       (∃ t, trace σ = t ++ [EvOpen (file_name n)])
       ∧ disk σ !! file_name n = Some []
       ∧ file_view σ n = Some []).
Proof.
  intros Hws Hpre Hbad σ n.
  destruct (written_app_invalid pre bad rest Hpre Hbad) as [Hwr Hatt].
  assert (¬ Forall valid (words src)) as Hnot.
  { rewrite Hws. intros Hall%Forall_app. destruct Hall as [_ Hall].
    by apply Forall_cons in Hall as [? _]. }
  assert (n ∈ Dict.keys (dictFiles σ)) as Hn.
  { apply run_keys. rewrite Hws, Hatt, fmap_app, elem_of_app. right. by left. }
  pose proof (run_view src d0 n Hn) as Hview.
  pose proof (run_writes src d0) as Hwrites.
  rewrite Hws, Hwr in Hview, Hwrites.
  destruct (run_fail src d0 Hnot) as (σ' & Hrun & Hinv).
  subst σ. rewrite Hrun in *. simpl in *.
  assert (disk σ' !! file_name n = Some []) as Hdisk.
  { rewrite (inv_disk _ _ _ _ Hinv).
    by rewrite decide_True by (by apply list_elem_of_fmap_2). }
  split_and!; [done | done | by rewrite Hdisk | done | done |].
  intros Hnew. split_and!; [| done | by rewrite Hview, bucket_nil].
  assert (EvOpen (file_name n) ∈ trace σ') as Hopen.
  { apply TraceFacts.elem_of_opens. rewrite (inv_opens _ _ _ _ Hinv).
    by apply list_elem_of_fmap_2. }
  apply list_elem_of_split in Hopen as (t1 & t2 & Ht).
  exists t1. destruct t2 as [|e t2]; [done|]. exfalso.
  destruct (inv_otw _ _ _ _ Hinv _ _ _ _ Ht) as [s ->].
  assert ((file_name n, s) ∈ writes (trace σ')) as Hin.
  { rewrite Ht. unfold writes. rewrite omap_app. simpl.
    apply elem_of_app. right. by left. }
  rewrite Hwrites in Hin.
  apply list_elem_of_fmap in Hin as (w & [= Heq%(inj file_name) _] & Hw).
  apply Hnew. rewrite Heq. by apply list_elem_of_fmap_2.
Qed.

Lemma C10_witness :
  words src_invalid = [[x63; x61; x74]] ++ [xff; xff] :: [[x64; x6f; x67]]
  ∧ Forall valid [[x63; x61; x74]] ∧ ¬ valid [xff; xff]
  ∧ (run src_invalid ∅).2 = Raise UnicodeDecodeError
  ∧ 2%nat ∈ Dict.keys (dictFiles (run src_invalid ∅).1)
  ∧ is_Some (disk (run src_invalid ∅).1 !! file_name 2)
  ∧ file_view (run src_invalid ∅).1 2
    = Some (unlines (bucket 2 [[x63; x61; x74]]))
  ∧ writes (trace (run src_invalid ∅).1) = write_of <$> [[x63; x61; x74]]
  ∧ (2%nat ∉ length <$> [[x63; x61; x74]] →
       (∃ t, trace (run src_invalid ∅).1 = t ++ [EvOpen (file_name 2)])
       ∧ disk (run src_invalid ∅).1 !! file_name 2 = Some []
       ∧ file_view (run src_invalid ∅).1 2 = Some []).
Proof.
  assert (words src_invalid
          = [[x63; x61; x74]] ++ [xff; xff] :: [[x64; x6f; x67]]) as H1
    by reflexivity.
  assert (Forall valid [[x63; x61; x74]]) as H2.
  { repeat constructor. by eexists. }
  assert (¬ valid [xff; xff]) as H3.
  { intros [t Ht]. by vm_compute in Ht. }
  split; [exact H1 | split; [exact H2 | split; [exact H3 |]]].
  apply (C10_file_opened_before_decoding src_invalid ∅ _ _ _ H1 H2 H3).
Defined.

(** ** C3: closing the files *)

(** C3, as stated, fails on the source [b"cat\n\xff\xff\ndog\n"]: the
    exception raised at the second line leaves the loop and the script,
    lines 16-17 are not executed, and the file object of [3.txt] is
    left open with ["cat\n"] in its buffer. *)
Lemma C3_counterexample : ¬ closed_on_every_path src_invalid ∅.
Proof.
  intros H.
  destruct (H 3%nat (TextIO "3.txt" [99; 97; 116; 10] false)) as [Hc _].
  - vm_compute. reflexivity.
  - discriminate Hc.
Qed.

Lemma closes_closes (ks : list nat) :
  closes ((λ k, EvClose (file_name k)) <$> ks) = file_name <$> ks.
Proof.
  induction ks as [|k ks IH]; [done|].
  rewrite !fmap_cons. simpl. by f_equal.
Qed.

Lemma run_Ok_valid src d0 : (run src d0).2 = Ok tt → Forall valid (words src).
Proof. rewrite run_result. by case_decide. Qed.

(** C3, amended: on the exit path of a run that meets no error, where
    every line is valid, every file opened during the run is closed by
    the loop of lines 16-17 and its buffer is flushed: the file objects
    are closed and their buffers empty, the files closed are the files
    opened, and each file holds on disk all that was written to it. *)
Theorem C3_closed_on_normal_exit src d0 :
  Forall valid (words src) →
  let σ := (run src d0).1 in
  (run src d0).2 = Ok tt
  ∧ (∀ n f, Dict.get n (dictFiles σ) = Some f →
       closed f = true ∧ buffer f = [])
  ∧ closes (trace σ) = opens (trace σ)
  ∧ ∀ n, n ∈ Dict.keys (dictFiles σ) →
      disk σ !! file_name n = Some (unlines (bucket n (words src))).
Proof.
  intros Hall σ. pose proof (run_opens src d0) as Hopens. fold σ in Hopens.
  destruct (run_ok src d0 Hall) as (σ' & Hrun & Hfin).
  subst σ. rewrite Hrun in *. simpl in *.
  split_and!; [done | | | apply (fin_disk _ _ _ Hfin)].
  - intros n f Hf. by rewrite (fin_obj _ _ _ Hfin _ _ Hf).
  - rewrite Hopens.
    destruct (fin_trace _ _ _ Hfin) as (t & -> & _ & _ & Hcl & _).
    unfold closes in *. rewrite omap_app, Hcl. apply closes_closes.
Qed.

Lemma C3_witness :
  Forall valid (words src_scenario)
  ∧ (run src_scenario ∅).2 = Ok tt
  ∧ (∀ n f, Dict.get n (dictFiles (run src_scenario ∅).1) = Some f →
       closed f = true ∧ buffer f = [])
  ∧ closes (trace (run src_scenario ∅).1)
    = opens (trace (run src_scenario ∅).1)
  ∧ ∀ n, n ∈ Dict.keys (dictFiles (run src_scenario ∅).1) →
      disk (run src_scenario ∅).1 !! file_name n
      = Some (unlines (bucket n (words src_scenario))).
Proof.
  assert (Forall valid (words src_scenario)) as H.
  { apply (bool_decide_unpack _). vm_compute. exact I. }
  split; [exact H | apply (C3_closed_on_normal_exit src_scenario ∅ H)].
Defined.

(** ** C7: the lines of an output file *)

(** C7: the content of an output file is made of lines that each end
    with a line feed, and these lines are the texts of the words of its
    length that the run has written, one word per line, in the order of
    the source ([filter] keeps the order of the list); when the run
    meets no error, all the words are written and this content is what
    the file holds on disk. *)
Theorem C7_lines_in_source_order src d0 n :
  n ∈ Dict.keys (dictFiles (run src d0).1) →
  ∃ content,
    file_view (run src d0).1 n = Some content
    ∧ content = unlines (text_lines content)
    ∧ text_lines content
      = text_of <$> filter (λ w, length w = n) (written (words src))
    ∧ ((run src d0).2 = Ok tt →
         written (words src) = words src
         ∧ disk (run src d0).1 !! file_name n = Some content).
Proof.
  intros Hn. exists (unlines (bucket n (written (words src)))).
  pose proof (bucket_lines src n _ (written_sub (words src))) as Hlines.
  split_and!.
  - by apply run_view.
  - by rewrite Hlines.
  - by rewrite Hlines.
  - intros Hall%run_Ok_valid. split; [by apply written_all|].
    destruct (run_ok src d0 Hall) as (σ & Hrun & Hfin).
    rewrite Hrun in *. simpl in *.
    rewrite written_all by done. by apply (fin_disk _ _ _ Hfin).
Qed.

Lemma C7_witness :
  3%nat ∈ Dict.keys (dictFiles (run src_scenario ∅).1)
  ∧ ∃ content,
      file_view (run src_scenario ∅).1 3 = Some content
      ∧ content = unlines (text_lines content)
      ∧ text_lines content
        = text_of <$> filter (λ w, length w = 3%nat)
                        (written (words src_scenario))
      ∧ ((run src_scenario ∅).2 = Ok tt →
           written (words src_scenario) = words src_scenario
           ∧ disk (run src_scenario ∅).1 !! file_name 3 = Some content).
Proof.
  assert (3%nat ∈ Dict.keys (dictFiles (run src_scenario ∅).1)) as H.
  { vm_compute. left. }
  split; [exact H | apply (C7_lines_in_source_order src_scenario ∅ 3 H)].
Defined.

(** ** C6: one opening per file *)

Lemma app_closes_split t (ks : list nat) t1 x t2 :
  (∀ nm, x ≠ EvClose nm) →
  t ++ ((λ k, EvClose (file_name k)) <$> ks) = t1 ++ x :: t2 →
  ∃ t2', t = t1 ++ x :: t2'
         ∧ t2 = t2' ++ ((λ k, EvClose (file_name k)) <$> ks).
Proof.
  intros Hx. revert t2. induction ks as [|k ks IH] using rev_ind; intros t2.
  - simpl. rewrite app_nil_r. intros ->. exists t2. by rewrite app_nil_r.
  - rewrite fmap_app, app_assoc. simpl.
    intros [(_ & _ & Habs)|(t2'' & -> & Heq)]%TraceFacts.snoc_split.
    + by destruct (Hx (file_name k)).
    + destruct (IH _ Heq) as (t2' & -> & ->).
      exists t2'. by rewrite <-app_assoc.
Qed.

Lemma open_before_write_closes t (ks : list nat) :
  open_before_write t →
  open_before_write (t ++ ((λ k, EvClose (file_name k)) <$> ks)).
Proof.
  intros Ht t1 nm s t2 Heq.
  apply app_closes_split in Heq as (t2' & -> & _); [|done].
  by eapply Ht.
Qed.

Lemma open_then_write_closes t (ks : list nat) :
  open_then_write t → (∀ t' nm, t ≠ t' ++ [EvOpen nm]) →
  open_then_write (t ++ ((λ k, EvClose (file_name k)) <$> ks)).
Proof.
  intros Ht Hlast t1 nm e t2 Heq.
  apply app_closes_split in Heq as (t2' & -> & Ht2); [|done].
  destruct t2' as [|e' t2'']; [by destruct (Hlast t1 nm)|].
  injection Ht2 as -> _. by eapply Ht.
Qed.

Lemma run_trace_order src d0 :
  open_before_write (trace (run src d0).1)
  ∧ open_then_write (trace (run src d0).1).
Proof.
  destruct (run_cases src d0) as [[Hall (σ & -> & Hfin)]|[Hnot (σ & -> & Hinv)]].
  - destruct (fin_trace _ _ _ Hfin) as (t & Ht & _ & _ & _ & Hobw & Hotw & Hl).
    simpl. rewrite Ht. split.
    + by apply open_before_write_closes.
    + by apply open_then_write_closes.
  - split; [apply (inv_obw _ _ _ _ Hinv) | apply (inv_otw _ _ _ _ Hinv)].
Qed.

(** C6: in the sequence of the file operations of a run, no file is
    opened twice; the files opened are those of the lengths of the
    words the run has come to; a file is opened when a word of its
    length is about to be written, the operation that follows being the
    write of that word (unless the run stops there); every write is
    made on a file opened before and not closed since, that is, through
    the file object of that one opening; and the opening truncates: the
    content of an output file is what this run has written to it,
    whatever the directory contained. *)
Theorem C6_file_opened_once src d0 :
  let σ := (run src d0).1 in
  NoDup (opens (trace σ))
  ∧ (∀ n, file_name n ∈ opens (trace σ)
          ↔ n ∈ length <$> attempted (words src))
  ∧ open_then_write (trace σ)
  ∧ open_before_write (trace σ)
  ∧ ∀ n, n ∈ length <$> attempted (words src) →
      file_view σ n = Some (unlines (bucket n (written (words src)))).
Proof.
  intros σ. subst σ. rewrite run_opens.
  destruct (run_trace_order src d0) as [Hobw Hotw].
  split_and!; [| | done | done |].
  - apply NoDup_fmap_2; [apply _ | apply run_nodup].
  - intros n. by rewrite list_elem_of_fmap_inj, run_keys by apply _.
  - intros n Hn. by apply run_view, run_keys.
Qed.

(** A file of the directory that has the name of an output file is
    truncated: here [3.txt], which held ["zzz"]. *)
Example truncation :
  disk (run src_scenario {["3.txt" := [122; 122; 122]]}).1 !! "3.txt"
  = Some [99; 97; 116; 10; 100; 111; 103; 10; 98; 101; 101; 10].
Proof. vm_compute. reflexivity. Qed.

(** ** C9: running twice *)

Lemma disk_blind_ret {A} (a : A) : disk_blind (ret a).
Proof. by intros σ1 σ2 H. Qed.

Lemma disk_blind_bind {A B} (m : M A) (k : A → M B) :
  disk_blind m → (∀ a, disk_blind (k a)) → disk_blind (bind m k).
Proof.
  intros Hm Hk σ1 σ2 H. unfold bind.
  destruct (Hm _ _ H) as [Hs Hr].
  destruct (m σ1) as [σ1' r1], (m σ2) as [σ2' r2]. simpl in *. subst r2.
  destruct r1; [by apply Hk | done].
Qed.

Lemma disk_blind_for_each {A} (xs : list A) (body : A → M unit) :
  (∀ x, disk_blind (body x)) → disk_blind (for_each xs body).
Proof.
  intros Hbody. induction xs as [|x xs IH]; simpl.
  - apply disk_blind_ret.
  - by apply disk_blind_bind.
Qed.

Ltac disk_blind_prim :=
  intros [d1 k1 t1] [d2 k2 t2] [H1 H2]; simpl in *; subst;
  repeat match goal with
    | |- context [match ?x with _ => _ end] => destruct x
    end; done.

Lemma disk_blind_main src : disk_blind (main src).
Proof.
  unfold main. apply disk_blind_bind; [apply disk_blind_for_each|].
  - intros line. unfold loop_body. apply disk_blind_bind.
    + unfold open_bucket. apply disk_blind_bind.
      * unfold dict_contains. disk_blind_prim.
      * intros []; [apply disk_blind_ret|].
        apply disk_blind_bind; [unfold open_w; disk_blind_prim|].
        intros f. unfold dict_setitem. disk_blind_prim.
    + intros _. apply disk_blind_bind.
      * unfold dict_getitem. disk_blind_prim.
      * intros r. apply disk_blind_bind.
        -- unfold bytes_decode. destruct (Utf8.decode _); by intros ???.
        -- intros text. unfold file_write. disk_blind_prim.
  - intros _. unfold close_files. apply disk_blind_bind.
    + unfold dict_values. disk_blind_prim.
    + intros fs. apply disk_blind_for_each.
      intros r. unfold file_close. disk_blind_prim.
Qed.

Lemma run_disk_blind src d0 d0' :
  dictFiles (run src d0').1 = dictFiles (run src d0).1
  ∧ trace (run src d0').1 = trace (run src d0).1
  ∧ (run src d0').2 = (run src d0).2.
Proof.
  destruct (disk_blind_main src (initial d0') (initial d0)) as [[? ?] ?];
    [done|]. done.
Qed.

(** C9: a second run on the same source, in the directory the first run
    has left, ends in the same state as the first: same outcome, same
    files with the same contents; and the content of an output file is
    the same whatever the directory contained before the run, so that
    two runs from a clean directory give the same files. *)
Theorem C9_second_run_identical src d0 :
  run src (disk (run src d0).1) = run src d0
  ∧ ∀ d0' n,
      file_view (run src d0').1 n = file_view (run src d0).1 n
      ∧ (run src d0').2 = (run src d0).2.
Proof.
  split.
  - destruct (run_disk_blind src d0 (disk (run src d0).1)) as (Hd & Ht & Hr).
    assert (disk (run src (disk (run src d0).1)).1 = disk (run src d0).1)
      as Hdisk.
    { apply map_eq. intros nm.
      destruct (run_cases src d0)
        as [[Hall (σ & Hrun & Hfin)]|[Hnot (σ & Hrun & Hinv)]];
        rewrite Hrun in *; simpl in *.
      - destruct (run_ok src (disk σ) Hall) as (σ' & Hrun' & Hfin').
        rewrite Hrun' in *. simpl in *.
        destruct (decide (nm ∈ file_name <$> Dict.keys (dictFiles σ)))
          as [(n & -> & Hn)%list_elem_of_fmap|Hnm].
        + rewrite (fin_disk _ _ _ Hfin _ Hn).
          apply (fin_disk _ _ _ Hfin'). by rewrite Hd.
        + rewrite (fin_other _ _ _ Hfin') by (by rewrite Hd). done.
      - destruct (run_fail src (disk σ) Hnot) as (σ' & Hrun' & Hinv').
        rewrite Hrun' in *. simpl in *.
        rewrite (inv_disk _ _ _ _ Hinv'), Hd.
        case_decide as Hnm; [|done].
        by rewrite (inv_disk _ _ _ _ Hinv), decide_True. }
    destruct (run src (disk (run src d0).1)) as [[k t d] r],
      (run src d0) as [[k0 t0 d00] r0]. simpl in *. by subst.
  - intros d0' n. destruct (run_disk_blind src d0 d0') as (Hd & Ht & Hr).
    split; [|done].
    destruct (decide (n ∈ Dict.keys (dictFiles (run src d0).1))) as [Hn|Hn].
    + rewrite !run_view; [done | done | by rewrite Hd].
    + unfold file_view. rewrite Hd.
      by rewrite (proj2 (DictFacts.get_None _ _) Hn).
Qed.

(** ** C2: every word in one file *)

(** C2, as stated, fails on the source [b" cat\n\xff\ndog\n"]: the
    first line is filed as ["cat"] in [3.txt], not as [" cat"] in
    [4.txt], which does not exist; and the run stops at the second
    line, so that ["dog"] is in no file. *)
Lemma C2_counterexample :
  ¬ partition_as_stated src_space_invalid ∅
  ∧ [x20; x63; x61; x74] ∈ spec_words src_space_invalid
  ∧ file_lines (run src_space_invalid ∅).1 4 = []
  ∧ [x64; x6f; x67] ∈ spec_words src_space_invalid
  ∧ output_lines (run src_space_invalid ∅).1 = [[99; 97; 116]].
Proof.
  assert ([x20; x63; x61; x74] ∈ spec_words src_space_invalid) as Hin.
  { vm_compute. left. }
  split_and!; [| exact Hin | by vm_compute | | by vm_compute].
  - intros [H _]. destruct (H _ Hin) as [Habs _].
    vm_compute in Habs. by apply elem_of_nil in Habs.
  - vm_compute. right. right. left.
Qed.

Lemma bucket_cons n w ws :
  bucket n (w :: ws)
  = (if decide (length w = n) then [text_of w] else []) ++ bucket n ws.
Proof. unfold bucket. rewrite filter_cons. by case_decide. Qed.

Lemma concat_insert_absent {A} (k : nat) (x : A) (g : nat → list A) ks :
  k ∉ ks →
  concat ((λ n, (if decide (k = n) then [x] else []) ++ g n) <$> ks)
  = concat (g <$> ks).
Proof.
  induction ks as [|k0 ks IH]; [done|].
  intros [Hne Hk]%not_elem_of_cons. rewrite !fmap_cons. simpl.
  by rewrite decide_False, IH.
Qed.

Lemma concat_insert_present {A} (k : nat) (x : A) (g : nat → list A) ks :
  NoDup ks → k ∈ ks →
  concat ((λ n, (if decide (k = n) then [x] else []) ++ g n) <$> ks)
  ≡ₚ x :: concat (g <$> ks).
Proof.
  induction 1 as [|k0 ks Hk0 Hnd IH]; [by intros ?%elem_of_nil|].
  rewrite !fmap_cons. simpl. intros Hk.
  destruct (decide (k = k0)) as [->|Hne].
  - by rewrite concat_insert_absent.
  - apply elem_of_cons in Hk as [?|Hk]; [done|].
    rewrite IH by done. simpl. by rewrite Permutation_middle.
Qed.

(** The files of distinct lengths that cover the lengths of the words
    share out the words. *)
Lemma bucket_partition ks ws :
  NoDup ks → (∀ w, w ∈ ws → length w ∈ ks) →
  concat ((λ n, bucket n ws) <$> ks) ≡ₚ text_of <$> ws.
Proof.
  intros Hnd. induction ws as [|w ws IH]; intros Hks.
  - clear. induction ks as [|k ks IH]; [done|]. by rewrite fmap_cons.
  - rewrite fmap_cons.
    rewrite <-IH by (intros w' Hw'; apply Hks; by right).
    rewrite <-(concat_insert_present (length w) (text_of w)
                 (λ n, bucket n ws) ks Hnd) by (apply Hks; by left).
    assert ((λ n, bucket n (w :: ws)) <$> ks
            = (λ n, (if decide (length w = n) then [text_of w] else [])
                    ++ bucket n ws) <$> ks) as ->; [|done].
    apply list_fmap_ext. intros _ n _. apply bucket_cons.
Qed.

Lemma written_attempted ws w : w ∈ written ws → w ∈ attempted ws.
Proof.
  induction ws as [|w0 ws IH]; simpl; [done|].
  case_decide; [|by intros ?%elem_of_nil].
  intros [->|Hw]%elem_of_cons; [by left | right; by apply IH].
Qed.

Lemma run_file_lines src d0 n :
  file_lines (run src d0).1 n = bucket n (written (words src)).
Proof.
  unfold file_lines.
  destruct (decide (n ∈ Dict.keys (dictFiles (run src d0).1))) as [Hn|Hn].
  - rewrite run_view by done. simpl.
    apply (bucket_lines src), written_sub.
  - rewrite bucket_nil.
    + unfold file_view.
      by rewrite (proj2 (DictFacts.get_None _ _) Hn).
    + intros (w & -> & Hw%written_attempted)%list_elem_of_fmap.
      by apply Hn, run_keys, list_elem_of_fmap_2.
Qed.

(** C2, amended: in a run that meets no error (every line is valid),
    for every word [w] of the source, the line stripped of its
    whitespace at both ends, the text of [w] is a line of the file of
    the byte length of [w] and of no other output file; the lines of
    all the output files are, as a multiset, the texts of the words;
    and what the files hold on disk is what was written to them. *)
Theorem C2_partition src d0 :
  Forall valid (words src) →
  let σ := (run src d0).1 in
  (∀ w, w ∈ words src →
     text_of w ∈ file_lines σ (length w)
     ∧ ∀ n, n ≠ length w → text_of w ∉ file_lines σ n)
  ∧ output_lines σ ≡ₚ text_of <$> words src
  ∧ ∀ n, n ∈ Dict.keys (dictFiles σ) → disk σ !! file_name n = file_view σ n.
Proof.
  intros Hall σ. subst σ. split_and!.
  - intros w Hw. rewrite run_file_lines, written_all by done. split.
    + apply elem_of_bucket. by exists w.
    + intros n Hne. rewrite run_file_lines, written_all by done.
      intros (w' & Hw' & Hlen & Heq)%elem_of_bucket.
      apply Hne. rewrite <-Hlen. f_equal.
      rewrite Forall_forall in Hall.
      destruct (Hall _ Hw) as [t Ht], (Hall _ Hw') as [t' Ht'].
      unfold text_of in Heq. rewrite Ht, Ht' in Heq. simpl in Heq. subst t'.
      by eapply Utf8Facts.decode_inj.
  - unfold output_lines.
    rewrite (list_fmap_ext (file_lines (run src d0).1)
               (λ n, bucket n (words src))
               (Dict.keys (dictFiles (run src d0).1))).
    + apply bucket_partition; [apply run_nodup|].
      intros w Hw. apply run_keys. rewrite attempted_all by done.
      by apply list_elem_of_fmap_2.
    + intros _ n _. by rewrite run_file_lines, written_all.
  - intros n Hn. rewrite run_view by done.
    destruct (run_ok src d0 Hall) as (σ & Hrun & Hfin).
    rewrite Hrun in *. simpl in *.
    by rewrite (fin_disk _ _ _ Hfin _ Hn), written_all.
Qed.

Lemma C2_witness :
  Forall valid (words src_scenario)
  ∧ (∀ w, w ∈ words src_scenario →
       text_of w ∈ file_lines (run src_scenario ∅).1 (length w)
       ∧ ∀ n, n ≠ length w →
           text_of w ∉ file_lines (run src_scenario ∅).1 n)
  ∧ output_lines (run src_scenario ∅).1 ≡ₚ text_of <$> words src_scenario
  ∧ ∀ n, n ∈ Dict.keys (dictFiles (run src_scenario ∅).1) →
      disk (run src_scenario ∅).1 !! file_name n
      = file_view (run src_scenario ∅).1 n.
Proof.
  assert (Forall valid (words src_scenario)) as H.
  { apply (bool_decide_unpack _). vm_compute. exact I. }
  split; [exact H | apply (C2_partition src_scenario ∅ H)].
Defined.

(** * Further properties of the script *)

(** ** Stripping and splitting into lines *)

Lemma all_space_app s1 s2 :
  Bytes.all_space (s1 ++ s2) ↔ Bytes.all_space s1 ∧ Bytes.all_space s2.
Proof. apply Forall_app. Qed.

Lemma strip_surround pre l post :
  Bytes.all_space pre → Bytes.all_space post →
  Bytes.strip (pre ++ l ++ post) = Bytes.strip l.
Proof.
  intros Hpre Hpost.
  destruct (BytesFacts.strip_spec l) as (p & q & Hl & Hp & Hq & Ht).
  rewrite Hl at 1.
  replace (pre ++ (p ++ Bytes.strip l ++ q) ++ post)
    with ((pre ++ p) ++ Bytes.strip l ++ (q ++ post))
    by (by rewrite <-!(assoc_L (++))).
  apply BytesFacts.strip_unique; [by apply all_space_app .. | done].
Qed.

Lemma strip_app_space l post :
  Bytes.all_space post → Bytes.strip (l ++ post) = Bytes.strip l.
Proof. intros H. apply (strip_surround [] l post); [constructor | done]. Qed.

Lemma strip_nil_iff l : Bytes.strip l = [] ↔ Bytes.all_space l.
Proof.
  split.
  - intros H. destruct (BytesFacts.strip_spec l) as (p & q & Hl & Hp & Hq & _).
    rewrite H in Hl. rewrite Hl. by apply all_space_app.
  - intros H. unfold Bytes.strip.
    by rewrite (BytesFacts.lstrip_all_space l H).
Qed.

(** X1 ([word.strip()], line 8): the whitespace around a line plays no
    role in the word obtained from it: stripping a line to which
    whitespace has been added at both ends gives the word of the line,
    which stripping again leaves as it is; and the word is empty
    exactly when the line is made of whitespace only. *)
Theorem strip_ignores_surrounding_whitespace pre l post :
  Bytes.all_space pre → Bytes.all_space post →
  Bytes.strip (pre ++ l ++ post) = Bytes.strip l
  ∧ Bytes.strip (Bytes.strip (pre ++ l ++ post)) = Bytes.strip l
  ∧ (Bytes.strip (pre ++ l ++ post) = [] ↔ Bytes.all_space l).
Proof.
  intros Hpre Hpost. rewrite (strip_surround pre l post Hpre Hpost).
  split_and!; [done | apply BytesFacts.strip_idemp | apply strip_nil_iff].
Qed.

Lemma strip_ignores_surrounding_whitespace_witness :
  Bytes.all_space [x20; x09] ∧ Bytes.all_space [x0d; x0a]
  ∧ Bytes.strip ([x20; x09] ++ [x61; x20; x62] ++ [x0d; x0a])
    = Bytes.strip [x61; x20; x62]
  ∧ Bytes.strip (Bytes.strip ([x20; x09] ++ [x61; x20; x62] ++ [x0d; x0a]))
    = Bytes.strip [x61; x20; x62]
  ∧ (Bytes.strip ([x20; x09] ++ [x61; x20; x62] ++ [x0d; x0a]) = []
     ↔ Bytes.all_space [x61; x20; x62]).
Proof.
  assert (Bytes.all_space [x20; x09]) as H1.
  { apply (bool_decide_unpack _). vm_compute. exact I. }
  assert (Bytes.all_space [x0d; x0a]) as H2.
  { apply (bool_decide_unpack _). vm_compute. exact I. }
  split; [exact H1 | split; [exact H2|]].
  apply (strip_ignores_surrounding_whitespace _ [x61; x20; x62] _ H1 H2).
Defined.

Lemma is_lf_false b : b ≠ LF → Bytes.is_lf b = false.
Proof. intros H. unfold Bytes.is_lf. by rewrite bool_decide_eq_false. Qed.

Lemma readlines_cons b s :
  Bytes.readlines (b :: s)
  = if Bytes.is_lf b then [b] :: Bytes.readlines s
    else match Bytes.readlines s with
         | [] => [[b]]
         | l :: ls => (b :: l) :: ls
         end.
Proof. done. Qed.

Lemma readlines_cons_line l s :
  LF ∉ l → Bytes.readlines (l ++ LF :: s) = (l ++ [LF]) :: Bytes.readlines s.
Proof.
  induction l as [|b l IH]; intros Hl; [done|].
  apply not_elem_of_cons in Hl as [Hb Hl].
  simpl. rewrite is_lf_false by done. by rewrite IH.
Qed.

Lemma readlines_last_line l :
  LF ∉ l → l ≠ [] → Bytes.readlines l = [l].
Proof.
  induction l as [|b l IH]; intros Hl Hne; [done|].
  apply not_elem_of_cons in Hl as [Hb Hl].
  simpl. rewrite is_lf_false by done.
  destruct l as [|b' l]; [done|]. by rewrite IH.
Qed.

Lemma readlines_join ls tail :
  Forall (λ l, LF ∉ l) ls → LF ∉ tail →
  Bytes.readlines (join_lines [LF] ls ++ tail)
  = ((λ l, l ++ [LF]) <$> ls) ++ (if decide (tail = []) then [] else [tail]).
Proof.
  intros Hls Htail. induction Hls as [|l ls Hl _ IH].
  - simpl. case_decide as Ht; [by subst|]. by apply readlines_last_line.
  - unfold join_lines in *. rewrite fmap_cons. simpl.
    rewrite <-!(assoc_L (++)). simpl.
    rewrite readlines_cons_line by done. by rewrite IH.
Qed.

(** After a line feed the splitting starts afresh. *)
Lemma readlines_app s1 s2 :
  last s1 = Some LF →
  Bytes.readlines (s1 ++ s2) = Bytes.readlines s1 ++ Bytes.readlines s2.
Proof.
  induction s1 as [|b s1 IH]; [done|]. intros Hlast.
  destruct s1 as [|b' s1].
  - simpl in Hlast. injection Hlast as ->. done.
  - specialize (IH Hlast).
    change ((b :: b' :: s1) ++ s2) with (b :: ((b' :: s1) ++ s2)).
    rewrite (readlines_cons b ((b' :: s1) ++ s2)), IH.
    rewrite (readlines_cons b (b' :: s1)).
    destruct (Bytes.is_lf b); [done|].
    destruct (Bytes.readlines (b' :: s1)) as [|l ls] eqn:Hr; [|done].
    by apply BytesFacts.readlines_nil in Hr.
Qed.

Lemma readlines_snoc_LF s :
  s ≠ [] → last s ≠ Some LF →
  ∃ ls l, Bytes.readlines s = ls ++ [l]
          ∧ Bytes.readlines (s ++ [LF]) = ls ++ [l ++ [LF]].
Proof.
  induction s as [|b s IH]; [done|]. intros _ Hlast.
  destruct s as [|b' s].
  - assert (b ≠ LF) as Hb by (intros ->; by apply Hlast).
    exists [], [b]. simpl. by rewrite is_lf_false.
  - destruct IH as (ls & l & Hr & Hr'); [done | done |].
    change ((b :: b' :: s) ++ [LF]) with (b :: ((b' :: s) ++ [LF])).
    rewrite (readlines_cons b ((b' :: s) ++ [LF])), Hr'.
    rewrite (readlines_cons b (b' :: s)), Hr.
    destruct (Bytes.is_lf b).
    + by exists ([b] :: ls), l.
    + destruct ls as [|l0 ls]; simpl.
      * by exists [], (b :: l).
      * by exists ((b :: l0) :: ls), l.
Qed.

Lemma all_space_LF : Bytes.all_space [LF].
Proof. by repeat constructor. Qed.

Lemma words_snoc_LF s :
  s ≠ [] → last s ≠ Some LF → words (s ++ [LF]) = words s.
Proof.
  intros Hne Hlast.
  destruct (readlines_snoc_LF s Hne Hlast) as (ls & l & Hr & Hr').
  unfold words. rewrite Hr, Hr', !fmap_app. simpl.
  by rewrite (strip_app_space l [LF] all_space_LF).
Qed.

(** X2 ([for word in f], line 7): the iteration over the source gives
    its lines back: on a source made of the lines [ls], each followed
    by a line feed, and of a last piece [tail] without line feed, it
    yields each line of [ls] with its line feed, then [tail] unless it
    is empty; and the lines yielded, put end to end, are the source. *)
Theorem readlines_of_lines ls tail :
  Forall (λ l, LF ∉ l) ls → LF ∉ tail →
  Bytes.readlines (join_lines [LF] ls ++ tail)
  = ((λ l, l ++ [LF]) <$> ls) ++ (if decide (tail = []) then [] else [tail])
  ∧ concat (Bytes.readlines (join_lines [LF] ls ++ tail))
    = join_lines [LF] ls ++ tail.
Proof.
  intros Hls Htail. split; [by apply readlines_join|].
  apply BytesFacts.concat_readlines.
Qed.

Lemma readlines_of_lines_witness :
  Forall (λ l, LF ∉ l) [[x63; x61; x74]; []; [x64; x6f; x67]]
  ∧ (LF ∉ [x62; x65; x65])
  ∧ Bytes.readlines
      (join_lines [LF] [[x63; x61; x74]; []; [x64; x6f; x67]]
       ++ [x62; x65; x65])
    = ((λ l, l ++ [LF]) <$> [[x63; x61; x74]; []; [x64; x6f; x67]])
      ++ (if decide ([x62; x65; x65] = []) then [] else [[x62; x65; x65]])
  ∧ concat (Bytes.readlines
              (join_lines [LF] [[x63; x61; x74]; []; [x64; x6f; x67]]
               ++ [x62; x65; x65]))
    = join_lines [LF] [[x63; x61; x74]; []; [x64; x6f; x67]]
      ++ [x62; x65; x65].
Proof.
  assert (Forall (λ l, LF ∉ l) [[x63; x61; x74]; []; [x64; x6f; x67]]) as H1.
  { apply (bool_decide_unpack _). vm_compute. exact I. }
  assert (LF ∉ [x62; x65; x65]) as H2.
  { apply (bool_decide_unpack _). vm_compute. exact I. }
  split; [exact H1 | split; [exact H2|]].
  apply (readlines_of_lines _ _ H1 H2).
Defined.

(** ** The run as a function of the words *)

Lemma loop_body_strip line : loop_body (Bytes.strip line) = loop_body line.
Proof. unfold loop_body. by rewrite BytesFacts.strip_idemp. Qed.

(** On a line that is not valid the body of the loop raises, whatever
    the state. *)
Lemma loop_body_invalid line σ :
  ¬ valid (Bytes.strip line) → ∃ σ' e, loop_body line σ = (σ', Raise e).
Proof.
  intros Hbad. unfold loop_body, bind.
  destruct (open_bucket _ σ) as [σ1 [[]|e]]; [|by eauto].
  destruct (dict_getitem _ σ1) as [σ2 [r|e]]; [|by eauto].
  unfold bytes_decode.
  destruct (Utf8.decode (Bytes.strip line)) as [t|] eqn:Hd.
  - destruct Hbad. by exists t.
  - unfold raise. by eauto.
Qed.

Lemma loop_attempted ls σ :
  for_each ls loop_body σ
  = for_each (attempted (Bytes.strip <$> ls)) loop_body σ.
Proof.
  revert σ. induction ls as [|l ls IH]; intros σ; [done|].
  rewrite fmap_cons. simpl. destruct (decide (valid (Bytes.strip l))) as [Hv|Hv].
  - simpl. unfold bind. rewrite loop_body_strip.
    destruct (loop_body l σ) as [σ' [[]|e]]; [apply IH | done].
  - simpl. unfold bind. rewrite loop_body_strip.
    destruct (loop_body_invalid l σ Hv) as (σ' & e & ->). done.
Qed.

Lemma run_attempted src d0 :
  run src d0
  = bind (for_each (attempted (words src)) loop_body) (λ _, close_files)
      (initial d0).
Proof. unfold run, main, bind. by rewrite loop_attempted. Qed.

Lemma run_attempted_eq src1 src2 d0 :
  attempted (words src1) = attempted (words src2) → run src1 d0 = run src2 d0.
Proof. intros H. by rewrite !run_attempted, H. Qed.

(** X3 (lines 7-14): a run depends on the source only through its
    stripped lines up to and including the first one that is not valid
    UTF-8: two sources that agree on these give the same final state
    and the same outcome, whatever whitespace surrounds their lines
    and whatever follows the line that is not valid. *)
Theorem run_depends_on_attempted_words src1 src2 d0 :
  attempted (words src1) = attempted (words src2) →
  run src1 d0 = run src2 d0.
Proof. apply run_attempted_eq. Qed.

Lemma run_depends_on_attempted_words_witness :
  attempted (words src_crlf) = attempted (words src_padded)
  ∧ run src_crlf ∅ = run src_padded ∅.
Proof.
  assert (attempted (words src_crlf) = attempted (words src_padded)) as H.
  { vm_compute. reflexivity. }
  split; [exact H | apply (run_depends_on_attempted_words _ _ ∅ H)].
Defined.

(** X4 (line 8): the carriage return is whitespace for [strip], so a
    source whose lines end with CR LF gives the same run as the source
    with the same lines ending with LF. *)
Theorem crlf_as_lf ls d0 :
  Forall (λ l, LF ∉ l) ls →
  run (join_lines [CR; LF] ls) d0 = run (join_lines [LF] ls) d0.
Proof.
  intros Hls. apply run_attempted_eq. f_equal. unfold words.
  assert (join_lines [CR; LF] ls = join_lines [LF] ((λ l, l ++ [CR]) <$> ls))
    as ->.
  { unfold join_lines. rewrite <-list_fmap_compose. f_equal.
    apply list_fmap_ext. intros _ l _. simpl. by rewrite <-(assoc_L (++)). }
  rewrite <-(app_nil_r (join_lines [LF] ((λ l, l ++ [CR]) <$> ls))).
  rewrite <-(app_nil_r (join_lines [LF] ls)).
  rewrite !readlines_join;
    [|done | by apply not_elem_of_nil | | by apply not_elem_of_nil].
  - simpl. rewrite !app_nil_r, <-!list_fmap_compose.
    apply list_fmap_ext. intros _ l _. simpl.
    rewrite <-(assoc_L (++)). simpl.
    rewrite (strip_app_space l [CR; LF]) by (by repeat constructor).
    by rewrite (strip_app_space l [LF]) by (by repeat constructor).
  - apply Forall_fmap. eapply Forall_impl; [exact Hls|].
    intros l Hl. simpl. rewrite elem_of_app, list_elem_of_singleton.
    intros [?|?]; done.
Qed.

Lemma crlf_as_lf_witness :
  Forall (λ l, LF ∉ l) [[x63; x61; x74]; [x64; x6f; x67]]
  ∧ run (join_lines [CR; LF] [[x63; x61; x74]; [x64; x6f; x67]]) ∅
    = run (join_lines [LF] [[x63; x61; x74]; [x64; x6f; x67]]) ∅.
Proof.
  assert (Forall (λ l, LF ∉ l) [[x63; x61; x74]; [x64; x6f; x67]]) as H.
  { apply (bool_decide_unpack _). vm_compute. exact I. }
  split; [exact H | apply (crlf_as_lf _ ∅ H)].
Defined.

(** X5 (lines 7-8): the line feed of the last line is optional: a
    source that does not end with a line feed gives the same run as
    the source followed by one. *)
Theorem final_line_feed_optional s d0 :
  s ≠ [] → last s ≠ Some LF → run (s ++ [LF]) d0 = run s d0.
Proof.
  intros Hne Hlast. apply run_attempted_eq. by rewrite words_snoc_LF.
Qed.

Lemma final_line_feed_optional_witness :
  src_no_final_lf ≠ [] ∧ last src_no_final_lf ≠ Some LF
  ∧ run (src_no_final_lf ++ [LF]) ∅ = run src_no_final_lf ∅.
Proof.
  assert (src_no_final_lf ≠ []) as H1 by discriminate.
  assert (last src_no_final_lf ≠ Some LF) as H2 by (vm_compute; discriminate).
  split; [exact H1 | split; [exact H2|]].
  apply (final_line_feed_optional src_no_final_lf ∅ H1 H2).
Defined.

Lemma written_app ws1 ws2 :
  Forall valid ws1 → written (ws1 ++ ws2) = ws1 ++ written ws2.
Proof.
  induction 1 as [|w ws1 Hw _ IH]; [done|].
  simpl. by rewrite decide_True, IH.
Qed.

Lemma bucket_app n ws1 ws2 : bucket n (ws1 ++ ws2) = bucket n ws1 ++ bucket n ws2.
Proof. unfold bucket. by rewrite filter_app, fmap_app. Qed.

(** X6 (lines 7-14): the run on two sources put end to end, the first
    of which ends with a line feed and has only valid lines: each
    output file has the lines it has in the run on the first source,
    followed by those it has in the run on the second, and the outcome
    is that of the run on the second. *)
Theorem run_app s1 s2 d0 n :
  last s1 = Some LF → Forall valid (words s1) →
  file_lines (run (s1 ++ s2) d0).1 n
  = file_lines (run s1 d0).1 n ++ file_lines (run s2 d0).1 n
  ∧ (run (s1 ++ s2) d0).2 = (run s2 d0).2.
Proof.
  intros Hlast Hall.
  assert (words (s1 ++ s2) = words s1 ++ words s2) as Hw.
  { unfold words. by rewrite readlines_app, fmap_app. }
  split.
  - rewrite !run_file_lines, Hw, written_app, bucket_app by done.
    by rewrite (written_all (words s1)).
  - rewrite !run_result, Hw.
    destruct (decide (Forall valid (words s2))) as [H2|H2].
    + rewrite decide_True; [done | by apply Forall_app].
    + rewrite decide_False; [done|]. by intros [_ ?]%Forall_app.
Qed.

Lemma run_app_witness :
  last [x63; x61; x74; x0a] = Some LF
  ∧ Forall valid (words [x63; x61; x74; x0a])
  ∧ file_lines (run ([x63; x61; x74; x0a] ++ src_no_final_lf) ∅).1 3
    = file_lines (run [x63; x61; x74; x0a] ∅).1 3
      ++ file_lines (run src_no_final_lf ∅).1 3
  ∧ (run ([x63; x61; x74; x0a] ++ src_no_final_lf) ∅).2
    = (run src_no_final_lf ∅).2.
Proof.
  assert (last [x63; x61; x74; x0a] = Some LF) as H1 by reflexivity.
  assert (Forall valid (words [x63; x61; x74; x0a])) as H2.
  { apply (bool_decide_unpack _). vm_compute. exact I. }
  split; [exact H1 | split; [exact H2|]].
  apply (run_app [x63; x61; x74; x0a] src_no_final_lf ∅ 3 H1 H2).
Defined.

(** ** The outcome of a run and the files of the directory *)


(** X8 (line 12): the only files a run creates or modifies are those
    named after the lengths of the words it comes to: any other file
    of the directory is, after the run, as it was before. *)
Theorem other_files_untouched src d0 nm :
  (∀ n, n ∈ length <$> attempted (words src) → nm ≠ file_name n) →
  disk (run src d0).1 !! nm = d0 !! nm.
Proof.
  intros Hnm.
  assert (nm ∉ file_name <$> Dict.keys (dictFiles (run src d0).1)) as Hout.
  { intros (n & -> & Hn%run_keys)%list_elem_of_fmap. by eapply Hnm. }
  destruct (run_cases src d0)
    as [[Hall (σ & Hrun & Hfin)]|[Hnot (σ & Hrun & Hinv)]];
    rewrite Hrun in *; simpl in *.
  - by apply (fin_other _ _ _ Hfin).
  - rewrite (inv_disk _ _ _ _ Hinv). by rewrite decide_False.
Qed.

Lemma other_files_untouched_witness :
  (∀ n, n ∈ length <$> attempted (words src_invalid) →
        "english-words.txt.gz" ≠ file_name n)
  ∧ disk (run src_invalid {["english-words.txt.gz" := [1; 2; 3]]}).1
      !! "english-words.txt.gz"
    = ({["english-words.txt.gz" := [1; 2; 3]]} : gmap string str)
        !! "english-words.txt.gz".
Proof.
  assert (∀ n, n ∈ length <$> attempted (words src_invalid) →
               "english-words.txt.gz" ≠ file_name n) as H.
  { intros n Hn. vm_compute in Hn.
    repeat (apply elem_of_cons in Hn as [->|Hn]; [by vm_compute|]).
    by apply elem_of_nil in Hn. }
  split; [exact H|].
  apply (other_files_untouched src_invalid _ "english-words.txt.gz" H).
Defined.

(** X9 (lines 14-17): a run that ends with an exception closes no
    file: the loop of lines 16-17 is not reached, no [close] is among
    the operations of the run, and every file object of [dictFiles] is
    left open. *)
Theorem error_path_leaves_files_open src d0 :
  (run src d0).2 ≠ Ok tt →
  closes (trace (run src d0).1) = []
  ∧ ∀ n f,
      Dict.get n (dictFiles (run src d0).1) = Some f →
      closed f = false ∧ name f = file_name n.
Proof.
  intros Hr.
  destruct (run_cases src d0)
    as [[Hall (σ & Hrun & Hfin)]|[Hnot (σ & Hrun & Hinv)]];
    rewrite Hrun in *; simpl in *; [done|].
  split; [apply (inv_closes _ _ _ _ Hinv)|].
  intros n f Hf. by rewrite (inv_obj _ _ _ _ Hinv _ _ Hf).
Qed.

Lemma error_path_leaves_files_open_witness :
  (run src_invalid ∅).2 ≠ Ok tt
  ∧ closes (trace (run src_invalid ∅).1) = []
  ∧ ∀ n f,
      Dict.get n (dictFiles (run src_invalid ∅).1) = Some f →
      closed f = false ∧ name f = file_name n.
Proof.
  assert ((run src_invalid ∅).2 ≠ Ok tt) as H by (vm_compute; discriminate).
  split; [exact H | apply (error_path_leaves_files_open src_invalid ∅ H)].
Defined.

(** X10 (lines 11-14): a run that ends normally leaves no empty output
    file: a file is opened only for a word of its length, so each
    output file begins with the line of such a word. *)
Theorem no_empty_file src d0 n :
  (run src d0).2 = Ok tt →
  n ∈ Dict.keys (dictFiles (run src d0).1) →
  ∃ w ts,
    w ∈ words src ∧ length w = n
    ∧ disk (run src d0).1 !! file_name n = Some (unlines (text_of w :: ts)).
Proof.
  intros Hall%run_Ok_valid Hn.
  destruct (run_ok src d0 Hall) as (σ & Hrun & Hfin).
  rewrite Hrun in *. simpl in *.
  rewrite (fin_disk _ _ _ Hfin _ Hn).
  apply (fin_dom _ _ _ Hfin) in Hn.
  unfold bucket.
  destruct (filter (λ w, length w = n) (words src)) as [|w ws] eqn:Hf.
  - exfalso. apply list_elem_of_fmap in Hn as (w & -> & Hw).
    assert (w ∈ filter (λ w', length w' = length w) (words src)) as Hin
      by (by apply list_elem_of_filter).
    rewrite Hf in Hin. by apply elem_of_nil in Hin.
  - assert (w ∈ filter (λ w, length w = n) (words src)) as Hin
      by (rewrite Hf; left).
    apply list_elem_of_filter in Hin as [Hlen Hw].
    by exists w, (text_of <$> ws).
Qed.

Lemma no_empty_file_witness :
  (run src_scenario ∅).2 = Ok tt
  ∧ 8%nat ∈ Dict.keys (dictFiles (run src_scenario ∅).1)
  ∧ ∃ w ts,
      w ∈ words src_scenario ∧ length w = 8%nat
      ∧ disk (run src_scenario ∅).1 !! file_name 8
        = Some (unlines (text_of w :: ts)).
Proof.
  assert ((run src_scenario ∅).2 = Ok tt) as H1 by (vm_compute; reflexivity).
  assert (8%nat ∈ Dict.keys (dictFiles (run src_scenario ∅).1)) as H2.
  { vm_compute. right. left. }
  split; [exact H1 | split; [exact H2|]].
  apply (no_empty_file src_scenario ∅ 8 H1 H2).
Defined.

Lemma unlines_bucket_0 ws :
  unlines (bucket 0 ws)
  = replicate (length (filter (λ w, length w = 0%nat) ws)) NL.
Proof.
  induction ws as [|w ws IH]; [done|].
  rewrite bucket_cons, filter_cons. case_decide as Hw; [|done].
  apply nil_length_inv in Hw as ->. simpl. by rewrite <-IH.
Qed.

Lemma count_blank ls :
  length (filter (λ w, length w = 0%nat) (Bytes.strip <$> ls))
  = length (filter Bytes.all_space ls).
Proof.
  induction ls as [|l ls IH]; [done|].
  rewrite fmap_cons, !filter_cons.
  destruct (decide (Bytes.all_space l)) as [Hl|Hl].
  - rewrite decide_True; [simpl; by rewrite IH|].
    by rewrite (proj2 (strip_nil_iff l) Hl).
  - rewrite decide_False; [done|].
    intros H%nil_length_inv. by apply Hl, strip_nil_iff.
Qed.

Lemma filter_length_elem {A} (P : A → Prop) `{!∀ x, Decision (P x)} (l : list A) :
  length (filter P l) ≠ 0%nat ↔ ∃ x, x ∈ l ∧ P x.
Proof.
  split.
  - destruct (filter P l) as [|x l'] eqn:Hf; [done|]. intros _.
    exists x. apply and_comm, (list_elem_of_filter P). rewrite Hf. left.
  - intros (x & Hx & HP) Hlen. apply nil_length_inv in Hlen.
    assert (x ∈ filter P l) as Hin by (by apply list_elem_of_filter).
    rewrite Hlen in Hin. by apply elem_of_nil in Hin.
Qed.

(** X11 (lines 8-14): the empty lines and the lines made of whitespace
    are not skipped: each gives the empty word, of length 0, and in a
    run on a source whose lines are all valid the file [0.txt] holds
    one line feed for each of the [k] such lines; when there is none,
    [0.txt] is left as it was. *)
Theorem blank_lines_go_to_0_txt src d0 :
  Forall valid (words src) →
  let k := length (filter Bytes.all_space (Bytes.readlines src)) in
  disk (run src d0).1 !! "0.txt"
  = if decide (k = 0%nat) then d0 !! "0.txt" else Some (replicate k NL).
Proof.
  intros Hall k.
  assert (0%nat ∈ length <$> words src ↔ k ≠ 0%nat) as Hk.
  { subst k. rewrite <-count_blank, filter_length_elem, list_elem_of_fmap.
    fold (words src). split; intros (w & ? & ?); by exists w. }
  destruct (run_ok src d0 Hall) as (σ & Hrun & Hfin). rewrite Hrun. simpl.
  change "0.txt" with (file_name 0).
  case_decide as Hz.
  - apply (fin_other _ _ _ Hfin).
    intros (n & Heq%(inj file_name) & Hn%(fin_dom _ _ _ Hfin))%list_elem_of_fmap.
    subst n. by apply Hk in Hn.
  - rewrite (fin_disk _ _ _ Hfin); [|by apply (fin_dom _ _ _ Hfin), Hk].
    rewrite unlines_bucket_0. unfold words. by rewrite count_blank.
Qed.

Lemma blank_lines_go_to_0_txt_witness :
  Forall valid (words src_blank)
  ∧ disk (run src_blank ∅).1 !! "0.txt" = Some [NL; NL].
Proof.
  assert (Forall valid (words src_blank)) as H.
  { apply (bool_decide_unpack _). vm_compute. exact I. }
  split; [exact H | apply (blank_lines_go_to_0_txt src_blank ∅ H)].
Defined.

(** ** The text of the lines *)

Lemma encoded_length e c : Utf8.encoded e c → (1 ≤ length e ≤ 4)%nat.
Proof. destruct 1; simpl; lia. Qed.

Lemma encoded_low e c :
  Utf8.encoded e c → (length e = 1%nat ↔ Forall Utf8.low e).
Proof.
  destruct 1 as [b Hb|b0 b1 v0 v1 H0 H1|b0 b1 b2 v0 v1 v2 H0 H1 H2 Ha Hb
                 |b0 b1 b2 b3 v0 v1 v2 v3 H0 H1 H2 H3 Ha Hb]; simpl.
  - split; [|done]. intros _. constructor; [|constructor].
    unfold Utf8.low. by apply N.ltb_lt.
  - split; [done|]. intros [Hl _]%Forall_cons.
    unfold Utf8.low in Hl. apply N.ltb_lt in Hl. subst v0. lia.
  - split; [done|]. intros [Hl _]%Forall_cons.
    unfold Utf8.low in Hl. apply N.ltb_lt in Hl. subst v0. lia.
  - split; [done|]. intros [Hl _]%Forall_cons.
    unfold Utf8.low in Hl. apply N.ltb_lt in Hl. subst v0. lia.
Qed.

(** The decoder accepts neither a surrogate nor a code point above
    [U+10FFFF]. *)
Lemma encoded_scalar e c : Utf8.encoded e c → scalar c.
Proof.
  destruct 1 as [b Hb|b0 b1 v0 v1 H0 H1|b0 b1 b2 v0 v1 v2 H0 H1 H2 Ha Hb
                 |b0 b1 b2 b3 v0 v1 v2 v3 H0 H1 H2 H3 Ha Hb];
    unfold scalar.
  - lia.
  - lia.
  - destruct (decide (v0 = 0xED)) as [He|He].
    + specialize (Hb He). lia.
    + clear Ha Hb. lia.
  - destruct (decide (v0 = 0xF4)) as [He|He].
    + specialize (Hb He). lia.
    + clear Hb. destruct (decide (v0 = 0xF0)) as [He'|He'].
      * specialize (Ha He'). lia.
      * clear Ha. lia.
Qed.

(** An ASCII character is encoded as one byte, which is its code. *)
Lemma encoded_ascii e c :
  Utf8.encoded e c → c < 0x80 → ∃ b, e = [b] ∧ Byte.to_N b = c.
Proof.
  destruct 1 as [b Hb|b0 b1 v0 v1 H0 H1|b0 b1 b2 v0 v1 v2 H0 H1 H2 Ha Hb
                 |b0 b1 b2 b3 v0 v1 v2 v3 H0 H1 H2 H3 Ha Hb]; intros Hc.
  - by exists b.
  - lia.
  - destruct (decide (v0 = 0xE0)) as [He|He]; [specialize (Ha He)|]; lia.
  - destruct (decide (v0 = 0xF0)) as [He|He]; [specialize (Ha He)|]; lia.
Qed.

Lemma encoded_char_low e c :
  Utf8.encoded e c → (c < 0x80 ↔ Forall Utf8.low e).
Proof.
  intros He. split.
  - intros Hc. destruct (encoded_ascii _ _ He Hc) as (b & -> & <-).
    constructor; [|constructor]. unfold Utf8.low. by apply N.ltb_lt.
  - intros Hl%(encoded_low _ _ He).
    destruct He; simpl in Hl; lia.
Qed.

(** The bytes of a valid string are the encodings of the characters of
    its text, one after the other. *)
Lemma decode_pieces w t :
  Utf8.decode w = Some t →
  ∃ es, w = concat es ∧ Forall2 Utf8.encoded es t.
Proof.
  revert w. induction t as [|c t IH]; intros w Hd.
  - apply Utf8Facts.decode_nil_inv in Hd as ->. by exists [].
  - apply Utf8Facts.decode_cons_inv in Hd as (rest & Hn & Hd).
    apply Utf8Facts.next_char_encoded in Hn as (e & -> & He).
    destruct (IH _ Hd) as (es & -> & Hes).
    exists (e :: es). split; [done | by constructor].
Qed.

Lemma decode_length w t :
  Utf8.decode w = Some t →
  (length t ≤ length w ≤ 4 * length t)%nat
  ∧ (length t = length w ↔ Forall Utf8.low w).
Proof.
  intros (es & -> & Hes)%decode_pieces.
  induction Hes as [|e c es t He Hes IH]; simpl.
  - split; [lia | done].
  - pose proof (encoded_length _ _ He) as Hlen.
    pose proof (encoded_low _ _ He) as Hlow.
    rewrite length_app, Forall_app. destruct IH as [IH1 IH2].
    split; [lia|]. split.
    + intros Heq. assert (length e = 1%nat) by lia.
      split; [by apply Hlow | apply IH2; lia].
    + intros [H1%Hlow H2%IH2]. lia.
Qed.

Lemma decode_low w t :
  Utf8.decode w = Some t → (Forall (λ c, c < 0x80) t ↔ Forall Utf8.low w).
Proof.
  intros (es & -> & Hes)%decode_pieces.
  induction Hes as [|e c es t He Hes IH]; simpl; [done|].
  rewrite Forall_cons, Forall_app, IH, (encoded_char_low _ _ He). done.
Qed.

Lemma decode_scalar w t : Utf8.decode w = Some t → Forall scalar t.
Proof.
  intros (es & -> & Hes)%decode_pieces.
  induction Hes as [|e c es t He Hes IH]; constructor; [|done].
  by eapply encoded_scalar.
Qed.

Lemma decode_head w c t :
  Utf8.decode w = Some (c :: t) → c < 0x80 →
  ∃ b w', w = b :: w' ∧ Byte.to_N b = c.
Proof.
  intros (es & -> & Hes)%decode_pieces Hc.
  inversion Hes as [|e c' es' t' He Hes']; subst.
  destruct (encoded_ascii _ _ He Hc) as (b & -> & Hb).
  by exists b, (concat es').
Qed.

Lemma decode_last w t c :
  Utf8.decode w = Some (t ++ [c]) → c < 0x80 →
  ∃ w' b, w = w' ++ [b] ∧ Byte.to_N b = c.
Proof.
  intros (es & -> & Hes)%decode_pieces Hc.
  apply Forall2_app_inv_r in Hes as (es1 & es2 & Hes1 & Hes2 & ->).
  inversion Hes2 as [|e c' es' t' He Hes']; subst.
  inversion Hes'; subst.
  destruct (encoded_ascii _ _ He Hc) as (b & -> & Hb).
  exists (concat es1), b. by rewrite concat_app.
Qed.

Lemma space_char_byte b : is_space_char (Byte.to_N b) = Bytes.isspace b.
Proof. destruct b; vm_compute; reflexivity. Qed.

Lemma space_char_low c : is_space_char c = true → c < 0x80.
Proof.
  unfold is_space_char. rewrite bool_decide_eq_true. intros H.
  repeat (apply elem_of_cons in H as [->|H]; [lia|]).
  by apply elem_of_nil in H.
Qed.

Lemma elem_of_concat {A} (ls : list (list A)) l x :
  l ∈ ls → x ∈ l → x ∈ concat ls.
Proof.
  induction 1 as [l ls|l0 l ls _ IH]; simpl; rewrite elem_of_app; auto.
Qed.

Lemma readlines_elem s l b : l ∈ Bytes.readlines s → b ∈ l → b ∈ s.
Proof.
  intros Hl Hb. rewrite <-(BytesFacts.concat_readlines s).
  by apply (elem_of_concat _ l).
Qed.

Lemma word_elem src w b : w ∈ words src → b ∈ w → b ∈ src.
Proof.
  intros (l & -> & Hl)%list_elem_of_fmap Hb.
  apply (readlines_elem src l); [done|].
  destruct (BytesFacts.strip_spec l) as (p & q & Hpq & _).
  rewrite Hpq, !elem_of_app. auto.
Qed.

Lemma words_low src : Forall Utf8.low src → Forall (Forall Utf8.low) (words src).
Proof.
  rewrite !Forall_forall. intros Hsrc w Hw. rewrite Forall_forall.
  intros b Hb. eapply Hsrc, word_elem; done.
Qed.

Lemma low_valid w : Forall Utf8.low w → valid w.
Proof. intros H. unfold valid. by rewrite (Utf8Facts.decode_ascii w H). Qed.

Lemma text_of_low w : Forall Utf8.low w → text_of w = Byte.to_N <$> w.
Proof. intros H. unfold text_of. by rewrite (Utf8Facts.decode_ascii w H). Qed.

(** A line of an output file is the text of a word of the source that
    has the length of the file. *)
Lemma file_line_word src d0 n t :
  t ∈ file_lines (run src d0).1 n →
  ∃ w, w ∈ words src ∧ length w = n ∧ Utf8.decode w = Some t.
Proof.
  rewrite run_file_lines.
  intros (w & [Hw [t' Ht']]%written_elem & Hlen & ->)%elem_of_bucket.
  exists w. split_and!; [done..|]. unfold text_of. by rewrite Ht'.
Qed.

(** X12 (lines 9 and 14): the number [n] of a file is a number of
    bytes, and a character takes one to four bytes: a line of the file
    of [n] has at most [n] characters and at least a quarter of [n],
    and it has [n] characters exactly when all its characters are
    ASCII. *)
Theorem line_length_bounds src d0 n t :
  t ∈ file_lines (run src d0).1 n →
  (length t ≤ n ≤ 4 * length t)%nat
  ∧ (length t = n ↔ Forall (λ c, c < 0x80) t).
Proof.
  intros (w & Hw & <- & Hd)%file_line_word.
  destruct (decode_length _ _ Hd) as [Hb Heq].
  split; [done|]. by rewrite Heq, (decode_low _ _ Hd).
Qed.

Lemma line_length_bounds_witness :
  [99; 97; 102; 233] ∈ file_lines (run src_accent ∅).1 5
  ∧ (length [99; 97; 102; 233] ≤ 5 ≤ 4 * length [99; 97; 102; 233])%nat
  ∧ (length [99; 97; 102; 233] = 5%nat
     ↔ Forall (λ c, c < 0x80) [99; 97; 102; 233]).
Proof.
  assert ([99; 97; 102; 233] ∈ file_lines (run src_accent ∅).1 5) as H.
  { vm_compute. left. }
  split; [exact H | apply (line_length_bounds src_accent ∅ 5 _ H)].
Defined.

(** X13 (lines 7-14): on a source made of ASCII bytes only, the run
    ends normally, the lines of the file of [n] are the words of [n]
    bytes of the source, byte for byte and in the order of the source,
    and each has [n] characters. *)
Theorem ascii_source src d0 :
  Forall Utf8.low src →
  (run src d0).2 = Ok tt
  ∧ ∀ n,
      file_lines (run src d0).1 n
      = (λ w : bytes, Byte.to_N <$> w) <$> filter (λ w, length w = n) (words src)
      ∧ Forall (λ t, length t = n) (file_lines (run src d0).1 n).
Proof.
  intros Hlow%words_low.
  assert (Forall valid (words src)) as Hall.
  { eapply Forall_impl; [exact Hlow | apply low_valid]. }
  split; [by rewrite run_result, decide_True|]. intros n.
  assert (file_lines (run src d0).1 n
          = (λ w : bytes, Byte.to_N <$> w)
              <$> filter (λ w, length w = n) (words src)) as ->.
  { rewrite run_file_lines, written_all by done. unfold bucket.
    apply list_fmap_ext. intros i w Hi. apply text_of_low.
    apply list_elem_of_lookup_2, list_elem_of_filter in Hi as [_ Hw].
    rewrite Forall_forall in Hlow. by apply Hlow. }
  split; [done|]. apply Forall_fmap, Forall_forall.
  intros w [Hlen _]%list_elem_of_filter. simpl. by rewrite length_fmap.
Qed.

Lemma ascii_source_witness :
  Forall Utf8.low src_scenario
  ∧ (run src_scenario ∅).2 = Ok tt
  ∧ ∀ n,
      file_lines (run src_scenario ∅).1 n
      = (λ w : bytes, Byte.to_N <$> w)
          <$> filter (λ w, length w = n) (words src_scenario)
      ∧ Forall (λ t, length t = n) (file_lines (run src_scenario ∅).1 n).
Proof.
  assert (Forall Utf8.low src_scenario) as H.
  { unfold Utf8.low. apply (bool_decide_unpack _). vm_compute. exact I. }
  split; [exact H | apply (ascii_source src_scenario ∅ H)].
Defined.

(** X14 (lines 8 and 14): a line of an output file contains no line
    feed, and neither begins nor ends with an ASCII whitespace
    character. *)
Theorem lines_are_trimmed src d0 n t :
  t ∈ file_lines (run src d0).1 n →
  (NL ∉ t)
  ∧ (∀ c t', t = c :: t' → is_space_char c = false)
  ∧ (∀ t' c, t = t' ++ [c] → is_space_char c = false).
Proof.
  intros (w & Hw & <- & Hd)%file_line_word.
  assert (Bytes.trimmed w) as [Hfirst Hlast].
  { apply list_elem_of_fmap in Hw as (l & -> & _).
    by destruct (BytesFacts.strip_spec l) as (? & ? & _ & _ & _ & ?). }
  split_and!.
  - generalize (text_no_NL src w Hw). unfold text_of. by rewrite Hd.
  - intros c t' ->. destruct (is_space_char c) eqn:Hc; [exfalso|done].
    destruct (decode_head _ _ _ Hd (space_char_low _ Hc)) as (b & w' & -> & <-).
    rewrite space_char_byte, (Hfirst b w') in Hc; done.
  - intros t' c ->. destruct (is_space_char c) eqn:Hc; [exfalso|done].
    destruct (decode_last _ _ _ Hd (space_char_low _ Hc)) as (w' & b & -> & <-).
    rewrite space_char_byte, (Hlast w' b) in Hc; done.
Qed.

Lemma lines_are_trimmed_witness :
  [97; 32; 98] ∈ file_lines (run src_inner_space ∅).1 3
  ∧ (NL ∉ [97; 32; 98])
  ∧ (∀ c t', [97; 32; 98] = c :: t' → is_space_char c = false)
  ∧ (∀ t' c, [97; 32; 98] = t' ++ [c] → is_space_char c = false).
Proof.
  assert ([97; 32; 98] ∈ file_lines (run src_inner_space ∅).1 3) as H.
  { vm_compute. left. }
  split; [exact H | apply (lines_are_trimmed src_inner_space ∅ 3 _ H)].
Defined.

(** X15 (line 14): what a run writes is made of Unicode scalar values
    only: the strict decoder yields no surrogate and no code point
    above [U+10FFFF]. *)
Theorem writes_scalar_values src d0 nm s :
  (nm, s) ∈ writes (trace (run src d0).1) → Forall scalar s.
Proof.
  rewrite run_writes.
  intros (w & [= -> ->] & [_ [t Ht]]%written_elem)%list_elem_of_fmap.
  apply Forall_app. split.
  - unfold text_of. rewrite Ht. simpl. by eapply decode_scalar.
  - repeat constructor; unfold NL; lia.
Qed.

Lemma writes_scalar_values_witness :
  ("5.txt", [99; 97; 102; 233; 10]) ∈ writes (trace (run src_accent ∅).1)
  ∧ Forall scalar [99; 97; 102; 233; 10].
Proof.
  assert (("5.txt", [99; 97; 102; 233; 10])
          ∈ writes (trace (run src_accent ∅).1)) as H.
  { vm_compute. left. }
  split; [exact H | apply (writes_scalar_values src_accent ∅ _ _ H)].
Defined.

(** ** The order of the files *)

Lemma keys_set_key {V} (d : Dict.t V) k v :
  Dict.keys (Dict.set k v d) = add_key k (Dict.keys d).
Proof.
  rewrite DictFacts.keys_set. unfold add_key.
  destruct (Dict.contains k d) eqn:Hc.
  - apply DictFacts.contains_true in Hc. by rewrite decide_True.
  - apply DictFacts.contains_false in Hc. by rewrite decide_False.
Qed.

Lemma keys_set_present {V} (d : Dict.t V) k v f :
  Dict.get k d = Some f → Dict.keys (Dict.set k v d) = Dict.keys d.
Proof.
  intros Hf. rewrite keys_set_key. unfold add_key.
  rewrite decide_True; [done|]. apply DictFacts.get_is_Some. by eexists.
Qed.

Lemma keys_open_bucket n σ :
  Dict.keys (dictFiles (open_bucket n σ).1)
  = add_key n (Dict.keys (dictFiles σ)).
Proof.
  rewrite open_bucket_run. simpl. unfold add_key.
  destruct (Dict.contains n (dictFiles σ)) eqn:Hc.
  - apply DictFacts.contains_true in Hc. by rewrite decide_True.
  - simpl. rewrite keys_set_key. done.
Qed.

Lemma keys_file_write r s σ :
  Dict.keys (dictFiles (file_write r s σ).1) = Dict.keys (dictFiles σ).
Proof.
  unfold file_write. destruct (Dict.get r (dictFiles σ)) as [f|] eqn:Hf; [|done].
  destruct (closed f); [done|]. simpl. by eapply keys_set_present.
Qed.

Lemma keys_file_close r σ :
  Dict.keys (dictFiles (file_close r σ).1) = Dict.keys (dictFiles σ).
Proof.
  unfold file_close. destruct (Dict.get r (dictFiles σ)) as [f|] eqn:Hf; [|done].
  destruct (closed f); [done|]. simpl. by eapply keys_set_present.
Qed.

Lemma keys_close_loop ks σ :
  Dict.keys (dictFiles (for_each ks file_close σ).1) = Dict.keys (dictFiles σ).
Proof.
  revert σ. induction ks as [|k ks IH]; intros σ; [done|].
  simpl. unfold bind. pose proof (keys_file_close k σ) as Hk.
  destruct (file_close k σ) as [σ' [[]|e]]; simpl in *; [|done].
  by rewrite IH.
Qed.

(** One iteration adds the length of the word to the keys. *)
Lemma keys_loop_body l σ :
  Dict.keys (dictFiles (loop_body l σ).1)
  = add_key (length (Bytes.strip l)) (Dict.keys (dictFiles σ)).
Proof.
  rewrite <-keys_open_bucket. unfold loop_body, bind.
  rewrite (open_bucket_run (length (Bytes.strip l)) σ). simpl.
  set (σ1 := if Dict.contains _ _ then _ else _).
  unfold dict_getitem. destruct (Dict.get _ (dictFiles σ1)); [|done].
  unfold bytes_decode. destruct (Utf8.decode _) as [text|]; [|done].
  unfold ret. apply keys_file_write.
Qed.

Lemma loop_body_valid d0 pws l σ :
  inv d0 pws pws σ → valid (Bytes.strip l) →
  ∃ σ', loop_body l σ = (σ', Ok tt)
        ∧ inv d0 (pws ++ [Bytes.strip l]) (pws ++ [Bytes.strip l]) σ'.
Proof.
  intros Hinv [text Hw].
  pose proof (inv_open _ _ (Bytes.strip l) _ Hinv) as Hopen.
  rewrite loop_body_run; cycle 1.
  { apply DictFacts.get_is_Some, (inv_dom _ _ _ _ Hopen).
    rewrite fmap_app, elem_of_app. right. by left. }
  simpl. rewrite Hw. by apply inv_write.
Qed.

Lemma keys_loop d0 pws ls σ :
  inv d0 pws pws σ →
  Dict.keys (dictFiles (for_each ls loop_body σ).1)
  = foldl (λ ks n, add_key n ks) (Dict.keys (dictFiles σ))
      (length <$> attempted (Bytes.strip <$> ls)).
Proof.
  revert pws σ. induction ls as [|l ls IH]; intros pws σ Hinv; [done|].
  rewrite fmap_cons. simpl. unfold bind.
  destruct (decide (valid (Bytes.strip l))) as [Hv|Hv]; simpl;
    rewrite <-keys_loop_body.
  - destruct (loop_body_valid _ _ l _ Hinv Hv) as (σ' & -> & Hinv').
    simpl. by apply (IH (pws ++ [Bytes.strip l])).
  - by destruct (loop_body_invalid l σ Hv) as (σ' & e & ->).
Qed.

Lemma run_keys_order src d0 :
  Dict.keys (dictFiles (run src d0).1)
  = first_seen (length <$> attempted (words src)).
Proof.
  unfold first_seen, run, main, bind, words.
  change (@nil nat) with (Dict.keys (dictFiles (initial d0))).
  rewrite <-(keys_loop d0 [] (Bytes.readlines src) (initial d0) (inv_initial d0)).
  destruct (for_each _ loop_body _) as [σ [[]|e]]; [|done].
  unfold close_files, bind, dict_values. simpl. apply keys_close_loop.
Qed.

(** X16 (lines 11-12 and 16-17): [dictFiles] keeps its keys in the
    order of their insertion: the files are opened in the order in
    which their lengths first occur among the words the run comes to,
    and a run that ends normally closes them in that same order. *)
Theorem files_in_order_of_first_occurrence src d0 :
  opens (trace (run src d0).1)
  = file_name <$> first_seen (length <$> attempted (words src))
  ∧ ((run src d0).2 = Ok tt →
       closes (trace (run src d0).1)
       = file_name <$> first_seen (length <$> words src)).
Proof.
  split.
  - by rewrite run_opens, run_keys_order.
  - intros Hall%run_Ok_valid.
    pose proof (run_keys_order src d0) as Hk.
    rewrite attempted_all in Hk by done.
    destruct (run_ok src d0 Hall) as (σ & Hrun & Hfin).
    rewrite Hrun in *. simpl in *.
    destruct (fin_trace _ _ _ Hfin) as (t & -> & _ & _ & Hc & _).
    rewrite <-Hk. unfold closes in *. rewrite omap_app, Hc. simpl.
    apply closes_closes.
Qed.

(** On [b"dog\nantelope\ncat\nto\n"] the files are opened and closed in
    the order [3.txt], [8.txt], [2.txt]. *)
Example order_of_files :
  opens (trace (run src_lengths ∅).1) = ["3.txt"; "8.txt"; "2.txt"]
  ∧ closes (trace (run src_lengths ∅).1) = ["3.txt"; "8.txt"; "2.txt"]
  ∧ first_seen (length <$> words src_lengths) = [3; 8; 2]%nat.
Proof. vm_compute. split_and!; reflexivity. Qed.
